(** * Vector: a generic dynamic array over Go slices

    A shallow embedding of the [vector] package (type [Vector[T]], its
    functional options, its constructor and its methods) together with the
    part of Go's slice semantics the package relies on.

    Conventions of the embedding.
    - Go's [int] is modelled by [Z].  Every integer the package computes is a
      length, a capacity or an index bounded by a capacity (or twice a
      capacity), so the 64-bit wrap-around is out of reach of any slice that
      fits in memory; allocation is assumed to succeed.
    - A slice value is a backing array together with a length; its capacity is
      the length of the backing array.  Every slice the package stores starts
      at offset 0 of its array, sub-slices with an offset only occur as
      temporaries of [copy] and are modelled by their bounds ([window]).
    - Run-time errors of Go (index out of range, slice bounds out of range,
      [make] with a length above the capacity, nil dereference) are the
      [Panic] outcome.
    - A method with a pointer receiver is a state transformer on the receiver,
      [M A]; [Swap], which touches two receivers that may be the same object,
      is a state transformer on a heap of vectors.
    - Every outcome carries the number of backing arrays allocated on the
      way ([make], and [append] when it has to grow).
    - [NewFloat64] and [String] are left out: floating point and the
      formatting of [fmt] are not modelled.

    The seminar tasks [FilterNumbers], [invertMap] and [counter] follow the
    vector, in the module [tasks].  There the counter's [int] is the 64-bit
    one with its wrap-around, a map is a [gmap] and a range over it runs
    through its entries in any order. *)

From Stdlib Require Import ZArith Lia.
From stdpp Require Import base list gmap strings.

Local Open Scope Z_scope.

(** ** Outcomes and the state monad *)

Inductive runtime_error : Type :=
| IndexOutOfRange
| SliceBoundsOutOfRange
| MakesliceOutOfRange
| NilDereference.

Inductive outcome (A : Type) : Type :=
| Done (a : A) (mallocs : nat)
| Panic (e : runtime_error).
Arguments Done {A} a mallocs.
Arguments Panic {A} e.

Definition ST (S A : Type) : Type := S → outcome (A * S).

Definition st_ret {S A} (a : A) : ST S A := λ s, Done (a, s) 0%nat.

Definition st_bind {S A B} (f : A → ST S B) (m : ST S A) : ST S B :=
  λ s, match m s with
       | Done (a, s') n =>
           match f a s' with
           | Done r n' => Done r (n + n')%nat
           | Panic e => Panic e
           end
       | Panic e => Panic e
       end.

#[global] Instance ST_ret {S} : MRet (ST S) := @st_ret S.
#[global] Instance ST_bind {S} : MBind (ST S) := @st_bind S.

Definition get {S} : ST S S := λ s, Done (s, s) 0%nat.
Definition put {S} (s : S) : ST S unit := λ _, Done (tt, s) 0%nat.

(** A pure Go operation that may panic, run inside a method. *)
Definition lift {S A} (o : outcome A) : ST S A :=
  λ s, match o with
       | Done a n => Done (a, s) n
       | Panic e => Panic e
       end.

(** [for i := lo; i < hi; i++ { body i }] *)
Fixpoint for_loop {S} (fuel : nat) (i : Z) (body : Z → ST S unit) : ST S unit :=
  match fuel with
  | O => mret tt
  | Datatypes.S fuel' => body i;; for_loop fuel' (i + 1) body
  end.
Definition for_range {S} (lo hi : Z) (body : Z → ST S unit) : ST S unit :=
  for_loop (Z.to_nat (hi - lo)) lo body.

(** ** Element types and the run-time system *)

(** [T any]: all the package needs of [T] is its zero value
    ([lo.FromPtr(new(T))], and what [make] fills a fresh array with). *)
Class GoType (T : Type) := zero_value : T.

(** When [append] finds the capacity too small it asks the run-time system
    for a larger array; how much larger is the runtime's choice (the language
    only promises that the result fits).  [growslice oldcap needed] is that
    choice; [go_append] never goes below [needed]. *)
Class Runtime := growslice : Z → Z → Z.

#[global] Instance int_type : GoType Z := 0.
#[global] Instance string_type : GoType string := ""%string.

(** A runtime that allocates exactly what is needed. *)
Definition tight : Runtime := λ _ needed, needed.

(** A runtime that follows Go's rule for slices below 256 elements: the
    needed length when that is more than twice the old capacity, twice the
    old capacity otherwise (the rounding up to an allocation size class is
    left out). *)
Definition doubling : Runtime :=
  λ oldcap needed, if oldcap + oldcap <? needed then needed else oldcap + oldcap.

(** ** Slices *)

Section slices.
Context {T : Type} {GT : GoType T} {RT : Runtime}.

Record slice : Type := Slice { arr : list T; len : Z }.

Definition cap (s : slice) : Z := Z.of_nat (length (arr s)).

(** The elements a slice shows: the first [len] slots of its array. *)
Definition elems (s : slice) : list T := take (Z.to_nat (len s)) (arr s).

Definition slice_ok (s : slice) : Prop := 0 ≤ len s ≤ cap s.

(** [make([]T, n, c)] *)
Definition make (n c : Z) : outcome slice :=
  if (0 <=? n) && (n <=? c)
  then Done (Slice (replicate (Z.to_nat c) zero_value) n) 1
  else Panic MakesliceOutOfRange.

(** [s[i]] as a value *)
Definition slice_get (s : slice) (i : Z) : outcome T :=
  if (0 <=? i) && (i <? len s)
  then match arr s !! Z.to_nat i with
       | Some x => Done x 0
       | None => Panic IndexOutOfRange
       end
  else Panic IndexOutOfRange.

(** [s[i] = x] *)
Definition slice_set (s : slice) (i : Z) (x : T) : outcome slice :=
  if (0 <=? i) && (i <? len s)
  then Done (Slice (<[Z.to_nat i := x]> (arr s)) (len s)) 0
  else Panic IndexOutOfRange.

(** [s[:hi]]: the bound is checked against the capacity, not the length *)
Definition slice_to (s : slice) (hi : Z) : outcome slice :=
  if (0 <=? hi) && (hi <=? cap s)
  then Done (Slice (arr s) hi) 0
  else Panic SliceBoundsOutOfRange.

(** Bounds of a temporary sub-slice of [s]. *)
Record window : Type := Window { lo : Z; hi : Z }.

(** [s[lo:]] *)
Definition slice_from (s : slice) (lo : Z) : outcome window :=
  if (0 <=? lo) && (lo <=? len s)
  then Done (Window lo (len s)) 0
  else Panic SliceBoundsOutOfRange.

(** [s[lo:hi]] *)
Definition slice_range (s : slice) (lo hi : Z) : outcome window :=
  if (0 <=? lo) && (lo <=? hi) && (hi <=? cap s)
  then Done (Window lo hi) 0
  else Panic SliceBoundsOutOfRange.

(** Overwrite [n] slots of [dst] from [dlo] on with the [n] slots of [src]
    from [slo] on.  [src] is read before anything is written, as the
    memmove behind [copy] does when the two overlap. *)
Definition blit (dst : list T) (dlo : nat) (src : list T) (slo n : nat) : list T :=
  take dlo dst ++ take n (drop slo src) ++ drop (dlo + n) dst.

(** [copy(dst, src)] for two slices with arrays of their own. *)
Definition copy (dst src : slice) : slice :=
  let n := Z.min (len dst) (len src) in
  Slice (blit (arr dst) 0 (arr src) 0 (Z.to_nat n)) (len dst).

(** [copy(s[d.lo:d.hi], s[r.lo:r.hi])] for two windows of one slice. *)
Definition copy_within (s : slice) (d r : window) : slice :=
  let n := Z.min (hi d - lo d) (hi r - lo r) in
  Slice (blit (arr s) (Z.to_nat (lo d)) (arr s) (Z.to_nat (lo r)) (Z.to_nat n))
        (len s).

(** [append(s, xs...)]: in place while the capacity lasts, otherwise into a
    fresh array whose spare slots are zeroed. *)
Definition go_append (s : slice) (xs : list T) : outcome slice :=
  let needed := len s + Z.of_nat (length xs) in
  if needed <=? cap s
  then Done (Slice (take (Z.to_nat (len s)) (arr s) ++ xs
                      ++ drop (Z.to_nat needed) (arr s)) needed) 0
  else
    let newcap := Z.max needed (growslice (cap s) needed) in
    Done (Slice (take (Z.to_nat (len s)) (arr s) ++ xs
                   ++ replicate (Z.to_nat (newcap - needed)) zero_value) needed) 1.
End slices.

Arguments slice T : clear implicits.

(** ** The vector *)

Module vector.
Section vector.
Context {T : Type} {GT : GoType T} {RT : Runtime}.

Record Vector : Type := { data : slice T; size : Z; capacity : Z }.

(** A method with receiver [v *Vector[T]]. *)
Local Abbreviation M := (ST Vector).

(** [v.data = d], [v.size = n], [v.capacity = c] *)
Definition set_data (d : slice T) : M unit :=
  λ v, Done (tt, {| data := d; size := size v; capacity := capacity v |}) 0.
Definition set_size (n : Z) : M unit :=
  λ v, Done (tt, {| data := data v; size := n; capacity := capacity v |}) 0.
Definition set_capacity (c : Z) : M unit :=
  λ v, Done (tt, {| data := data v; size := size v; capacity := c |}) 0.

(** Go's [error]: [nil] or a message made by [errors.New]. *)
Definition error : Type := option string.
Definition nil_error : error := None.
Definition errors_New (msg : string) : error := Some msg.

(** *** Functional options *)

(** [Option[T]]: a function that mutates the vector under construction. *)
Definition Option : Type := M unit.

Definition WithCapacity (cap0 : Z) : Option :=
  let cap0 := if cap0 <? 0 then 0 else cap0 in
  d ← lift (make cap0 cap0);
  set_data d;;
  set_capacity cap0.

Definition WithValues (values : list T) : Option :=
  v ← get; d ← lift (go_append (data v) values);
  set_data d;;
  v ← get; set_size (len (data v));;
  v ← get;
  if capacity v <? size v then set_capacity (size v) else mret tt.

Definition WithSize (size0 : Z) (defaultValue : T) : Option :=
  let size0 := if size0 <? 0 then 0 else size0 in
  d ← lift (make size0 size0);
  set_data d;;
  set_size size0;;
  set_capacity size0;;
  for_range 0 size0
    (λ i, v ← get; d ← lift (slice_set (data v) i defaultValue); set_data d).

Definition WithFill (count : Z) (value : T) : Option :=
  for_range 0 count
    (λ _, v ← get; d ← lift (go_append (data v) [value]); set_data d);;
  v ← get; set_size (len (data v));;
  v ← get;
  if capacity v <? size v then set_capacity (size v) else mret tt.

Definition FromSlice (slice0 : list T) : Option :=
  v ← get; d ← lift (go_append (data v) slice0);
  set_data d;;
  v ← get; set_size (len (data v));;
  v ← get; set_capacity (len (data v)).

(** *** Construction *)

Fixpoint apply_options (options : list Option) : M unit :=
  match options with
  | [] => mret tt
  | option0 :: rest => option0;; apply_options rest
  end.

Definition New (options : list Option) : outcome Vector :=
  match make 0 0 with
  | Done d n =>
      match apply_options options {| data := d; size := 0; capacity := 0 |} with
      | Done (_, v) n' => Done v (n + n')
      | Panic e => Panic e
      end
  | Panic e => Panic e
  end.

(** *** Queries *)

Definition Size : M Z := v ← get; mret (size v).

Definition Capacity : M Z := v ← get; mret (capacity v).

Definition Empty : M bool := v ← get; mret (size v =? 0).

Definition At (index : Z) : M (T * error) :=
  v ← get;
  if (index <? 0) || (index >=? size v)
  then mret (zero_value, errors_New "index out of bounds")
  else x ← lift (slice_get (data v) index); mret (x, nil_error).

Definition Front : M (T * error) :=
  v ← get;
  if size v =? 0
  then mret (zero_value, errors_New "vector is empty")
  else x ← lift (slice_get (data v) 0); mret (x, nil_error).

Definition Back : M (T * error) :=
  v ← get;
  if size v =? 0
  then mret (zero_value, errors_New "vector is empty")
  else x ← lift (slice_get (data v) (size v - 1)); mret (x, nil_error).

Definition Data : M (slice T) :=
  v ← get; lift (slice_to (data v) (size v)).

Definition Begin : M Z := mret 0.

Definition End : M Z := v ← get; mret (size v).

(** *** Growth policy *)

Definition growCapacity : M Z :=
  v ← get;
  let c := cap (data v) in
  if c =? 0 then mret 1 else mret (c * 2).

Definition reserve (newCapacity : Z) : M unit :=
  v ← get; newData ← lift (make (size v) newCapacity);
  set_data (copy newData (data v));;
  set_capacity newCapacity.

(** *** Mutations *)

Definition PushBack (value : T) : M unit :=
  v ← get;
  (if size v =? cap (data v)
   then c ← growCapacity; reserve c
   else mret tt);;
  v ← get; d ← lift (slice_to (data v) (size v + 1)); set_data d;;
  v ← get; d ← lift (slice_set (data v) (size v) value); set_data d;;
  v ← get; set_size (size v + 1).

Definition PopBack : M error :=
  v ← get;
  if size v =? 0
  then mret (errors_New "vector is empty")
  else set_size (size v - 1);; mret nil_error.

Definition Insert (index : Z) (value : T) : M error :=
  v ← get;
  if (index <? 0) || (index >? size v)
  then mret (errors_New "index out of bounds")
  else
    (if size v =? cap (data v)
     then c ← growCapacity; reserve c
     else mret tt);;
    v ← get; d ← lift (go_append (data v) [zero_value]); set_data d;;
    v ← get;
    dst ← lift (slice_from (data v) (index + 1));
    src ← lift (slice_range (data v) index (size v));
    set_data (copy_within (data v) dst src);;
    v ← get; d ← lift (slice_set (data v) index value); set_data d;;
    v ← get; set_size (size v + 1);;
    mret nil_error.

Definition Erase (index : Z) : M error :=
  v ← get;
  if (index <? 0) || (index >=? size v)
  then mret (errors_New "index out of bounds")
  else
    dst ← lift (slice_from (data v) index);
    src ← lift (slice_range (data v) (index + 1) (size v));
    set_data (copy_within (data v) dst src);;
    v ← get; set_size (size v - 1);;
    v ← get; d ← lift (slice_to (data v) (size v)); set_data d;;
    mret nil_error.

Definition Clear : M unit :=
  set_size 0;;
  v ← get; d ← lift (slice_to (data v) 0); set_data d.

Definition Reserve (newCapacity : Z) : M unit :=
  v ← get;
  if newCapacity >? cap (data v) then reserve newCapacity else mret tt.

Definition Resize (newSize0 : Z) (value : T) : M unit :=
  let newSize := if newSize0 <? 0 then 0 else newSize0 in
  v ← get;
  let oldSize := size v in
  (if newSize >? cap (data v) then reserve newSize else mret tt);;
  v ← get; d ← lift (slice_to (data v) newSize); set_data d;;
  (if newSize >? oldSize
   then for_range oldSize newSize
          (λ i, v ← get; d ← lift (slice_set (data v) i value); set_data d)
   else mret tt);;
  set_size newSize.

Definition Assign (values : list T) : M unit :=
  d ← lift (go_append (Slice [] 0) values);
  set_data d;;
  set_size (Z.of_nat (length values));;
  v ← get; set_capacity (cap (data v)).

(** *** Vectors on the heap *)

(** A [*Vector[T]] is an address; [None] at an address is a nil or dangling
    pointer. *)
Definition ptr : Type := positive.
Local Abbreviation heap := (gmap positive Vector).

Definition deref (p : ptr) : ST heap Vector :=
  λ h, match h !! p with
       | Some v => Done (v, h) 0
       | None => Panic NilDereference
       end.

(** [p.m(...)]: run method [m] on the vector at [p]. *)
Definition call {A} (p : ptr) (m : M A) : ST heap A :=
  λ h, match h !! p with
       | Some v =>
           match m v with
           | Done (a, v') n => Done (a, <[p := v']> h) n
           | Panic e => Panic e
           end
       | None => Panic NilDereference
       end.

(** Each line of [Swap] is a tuple assignment: both right-hand sides are
    read first, then the left-hand sides are written from left to right. *)
Definition Swap (v other : ptr) : ST heap unit :=
  o ← deref other; r ← deref v;
  call v (set_data (data o));; call other (set_data (data r));;
  o ← deref other; r ← deref v;
  call v (set_size (size o));; call other (set_size (size r));;
  o ← deref other; r ← deref v;
  call v (set_capacity (capacity o));; call other (set_capacity (capacity r)).

(** The logical element sequence: what [Data()] shows. *)
Definition contents (v : Vector) : outcome (list T) :=
  match Data v with
  | Done (d, _) n => Done (elems d) n
  | Panic e => Panic e
  end.

(** *** Vocabulary of the specification *)

(** The state every operation is written for: the logical elements sit in
    the visible part of the slice. *)
Definition wf (v : Vector) : Prop :=
  0 ≤ size v ≤ len (data v) ∧ len (data v) ≤ cap (data v).

(** The first [size] slots of the backing array. *)
Definition logical (v : Vector) : list T :=
  take (Z.to_nat (size v)) (arr (data v)).

(** [for _, x := range values { v.PushBack(x) }] *)
Fixpoint push_all (values : list T) : M unit :=
  match values with
  | [] => mret tt
  | x :: rest => PushBack x;; push_all rest
  end.

(** The capacity sequence 0, 1, 2, 4, 8, ...: the least power of two that
    holds [n] elements, and 0 for none. *)
Definition grown_capacity (n : Z) : Z :=
  if n =? 0 then 0 else 2 ^ Z.log2_up n.

(** How many of the values 1, 2, 4, ... it takes to get there. *)
Definition growth_steps (n : Z) : nat :=
  if n =? 0 then 0%nat else Z.to_nat (1 + Z.log2_up n).

(** A vector that only ever saw [PushBack], after [k] pushes. *)
Definition pushed (k : Z) (v : Vector) : Prop :=
  wf v ∧ size v = k
  ∧ cap (data v) = grown_capacity k ∧ capacity v = grown_capacity k.

(** The data slice shows exactly the logical elements.  [New()] starts like
    this and the options other than [WithCapacity] end like this. *)
Definition tidy (v : Vector) : Prop :=
  wf v ∧ len (data v) = size v.

(** The options that add to what is there or start afresh: all but
    [WithCapacity]. *)
Inductive appending : Option → Prop :=
| appending_values values : appending (WithValues values)
| appending_size n defaultValue : appending (WithSize n defaultValue)
| appending_fill count value : appending (WithFill count value)
| appending_slice slice0 : appending (FromSlice slice0).

(** What a caller can do through a slice it holds from [Data()], re-sliced
    up to its capacity: overwrite slot [i] of the backing array.  (A view
    taken before a reallocation no longer reaches the vector.) *)
Definition view_write (i : Z) (x : T) : M unit :=
  view ← Data;
  full ← lift (slice_to view (cap view));
  d ← lift (slice_set full i x);
  v ← get; set_data (Slice (arr d) (len (data v))).

(** The calls of the public API on one vector. *)
Inductive method : ∀ {A : Type}, M A → Prop :=
| method_Size : method Size
| method_Capacity : method Capacity
| method_Empty : method Empty
| method_At index : method (At index)
| method_Front : method Front
| method_Back : method Back
| method_Data : method Data
| method_Begin : method Begin
| method_End : method End
| method_PushBack value : method (PushBack value)
| method_PopBack : method PopBack
| method_Insert index value : method (Insert index value)
| method_Erase index : method (Erase index)
| method_Clear : method Clear
| method_Reserve newCapacity : method (Reserve newCapacity)
| method_Resize newSize value : method (Resize newSize value)
| method_Assign values : method (Assign values)
| method_view_write i x : method (view_write i x).

(** Option lists in which [WithCapacity] only comes first, where the size is
    still 0. *)
Inductive safe_options : list Option → Prop :=
| safe_appending options :
    Forall appending options → safe_options options
| safe_capacity_first cap0 options :
    Forall appending options → safe_options (WithCapacity cap0 :: options).

Definition heap_wf (h : heap) : Prop :=
  ∀ p v, h !! p = Some v → wf v.

(** The options the package offers. *)
Inductive recognized : Option → Prop :=
| recognized_capacity cap0 : recognized (WithCapacity cap0)
| recognized_appending option0 : appending option0 → recognized option0.

(** The heaps a program can build with the public API, [New] being given the
    option lists that [admitted] lets through: any list of the package's
    options for [Forall recognized], those with [WithCapacity] kept first for
    [safe_options]. *)
Inductive reachable (admitted : list Option → Prop) : heap → Prop :=
| reachable_empty : reachable admitted ∅
| reachable_New h p options v n :
    reachable admitted h → h !! p = None → admitted options →
    New options = Done v n →
    reachable admitted (<[p := v]> h)
| reachable_call {A} h p (m : M A) r h' n :
    reachable admitted h → method m → call p m h = Done (r, h') n →
    reachable admitted h'
| reachable_Swap h p q h' n :
    reachable admitted h → Swap p q h = Done (tt, h') n →
    reachable admitted h'.
End vector.

(** [NewInt] and [NewString]: [New] at an element type. *)
Definition NewInt (options : list (@Option Z)) : outcome (@Vector Z) :=
  New options.
Definition NewString (options : list (@Option string)) : outcome (@Vector string) :=
  New options.
End vector.

Import vector.

(** What [New(WithValues(1, 2, 3), WithCapacity(1))] returns: three elements
    by the size, one slot of storage. *)
Definition shrunk : @Vector Z :=
  {| data := Slice [0] 1; size := 3; capacity := 1 |}.

(** What [New(WithValues(1), WithCapacity(0))] returns. *)
Definition emptied : @Vector Z :=
  {| data := Slice [] 0; size := 1; capacity := 0 |}.

(** ** The seminar tasks *)

Module tasks.

(** [for _, x := range xs { body x }] *)
Fixpoint for_each {S A} (xs : list A) (body : A → ST S unit) : ST S unit :=
  match xs with
  | [] => mret tt
  | x :: rest => body x;; for_each rest body
  end.

(** *** FilterNumbers *)

(** The state of the loop is the local [result]; [var result []int] is the
    nil slice, of length and capacity 0.  [predicate] is taken to be a pure
    function that returns. *)
Definition FilterNumbers `{RT : Runtime}
    (numbers : slice Z) (predicate : Z → bool) : outcome (slice Z) :=
  match for_each (elems numbers)
          (λ number,
             if predicate number
             then result ← get; r ← lift (go_append result [number]); put r
             else mret tt)
          (Slice [] 0) with
  | Done (_, result) n => Done result n
  | Panic e => Panic e
  end.

(** *** invertMap *)

Section invertMap.
Context `{Countable K} `{Countable V}.

(** [a := make(map[V]K)] and then [a[v] = k] for the entries of [s] in the
    order the range loop yields them. *)
Definition invertMap_along (entries : list (K * V)) : gmap V K :=
  foldl (λ a entry, <[entry.2 := entry.1]> a) ∅ entries.

(** A range over a map yields every entry once, in an order the language
    leaves open. *)
Definition iteration_of (s : gmap K V) (entries : list (K * V)) : Prop :=
  entries ≡ₚ map_to_list s.

(** [invertMap s] can return [a]. *)
Definition invertMap (s : gmap K V) (a : gmap V K) : Prop :=
  ∃ entries, iteration_of s entries ∧ a = invertMap_along entries.

(** Distinct keys hold distinct values. *)
Definition injective (s : gmap K V) : Prop :=
  ∀ k1 k2 v, s !! k1 = Some v → s !! k2 = Some v → k1 = k2.
End invertMap.

(** *** counter *)

(** Go's [int] on the 64-bit platforms: arithmetic wraps around. *)
Definition int_min : Z := - 2 ^ 63.
Definition int_max : Z := 2 ^ 63 - 1.
Definition is_int (z : Z) : Prop := int_min ≤ z ≤ int_max.
Definition wrap (z : Z) : Z := (z + 2 ^ 63) mod 2 ^ 64 - 2 ^ 63.

Record counter : Type := { value : Z }.

Definition newCounter (c : Z) : counter := {| value := c |}.

Definition Increment : ST counter unit :=
  c ← get; put {| value := wrap (value c + 1) |}.

Definition Decrement : ST counter unit :=
  c ← get; put {| value := wrap (value c - 1) |}.

Definition GetValue : ST counter Z := c ← get; mret (value c).

Definition Reset : ST counter unit := put {| value := 0 |}.

Definition Add (n : Z) : ST counter unit :=
  c ← get; put {| value := wrap (value c + n) |}.

Definition Subtract (n : Z) : ST counter unit :=
  c ← get; put {| value := wrap (value c - n) |}.
End tasks.

(** ** Proof tools *)

Ltac st_unfold :=
  unfold mbind, mret, ST_bind, ST_ret, st_bind, st_ret, get, put, lift,
    set_data, set_size, set_capacity.

(** Settle the comparisons of the goal from the integer facts at hand. *)
Ltac settle_tests :=
  rewrite ?Z.gtb_ltb, ?Z.geb_leb;
  repeat match goal with
    | |- context [?a <? ?b] =>
        first [ rewrite (proj2 (Z.ltb_lt a b)) by lia
              | rewrite (proj2 (Z.ltb_ge a b)) by lia ]
    | |- context [?a <=? ?b] =>
        first [ rewrite (proj2 (Z.leb_le a b)) by lia
              | rewrite (proj2 (Z.leb_gt a b)) by lia ]
    | |- context [?a =? ?b] =>
        first [ rewrite (proj2 (Z.eqb_eq a b)) by lia
              | rewrite (proj2 (Z.eqb_neq a b)) by lia ]
    end.

(** ** Facts about slices *)

Section slice_facts.
Context {T : Type} {GT : GoType T} {RT : Runtime}.
Implicit Types (s : slice T) (l : list T).

Lemma cap_nonneg s : 0 ≤ cap s.
Proof. unfold cap. lia. Qed.

Lemma slice_to_ok s hi :
  0 ≤ hi ≤ cap s → slice_to s hi = Done (Slice (arr s) hi) 0.
Proof. intros. unfold slice_to. by settle_tests. Qed.

Lemma slice_get_ok s i :
  0 ≤ i < len s → len s ≤ cap s →
  ∃ x, arr s !! Z.to_nat i = Some x ∧ slice_get s i = Done x 0.
Proof.
  intros Hi Hc. unfold slice_get, cap in *. settle_tests. simpl.
  destruct (lookup_lt_is_Some_2 (arr s) (Z.to_nat i)) as [x Hx]; [lia |].
  exists x. by rewrite Hx.
Qed.

Lemma slice_get_cases s i :
  (∃ x, slice_get s i = Done x 0) ∨ slice_get s i = Panic IndexOutOfRange.
Proof.
  unfold slice_get. destruct ((0 <=? i) && (i <? len s)); [| by right].
  destruct (arr s !! Z.to_nat i); [left | right]; eauto.
Qed.

Lemma slice_set_ok s i x :
  0 ≤ i < len s →
  slice_set s i x = Done (Slice (<[Z.to_nat i := x]> (arr s)) (len s)) 0.
Proof. intros. unfold slice_set. by settle_tests. Qed.

Lemma slice_from_ok s lo :
  0 ≤ lo ≤ len s → slice_from s lo = Done (Window lo (len s)) 0.
Proof. intros. unfold slice_from. by settle_tests. Qed.

Lemma slice_range_ok s lo hi :
  0 ≤ lo ≤ hi → hi ≤ cap s → slice_range s lo hi = Done (Window lo hi) 0.
Proof. intros. unfold slice_range. by settle_tests. Qed.

Lemma make_ok n c :
  0 ≤ n ≤ c → make n c = Done (Slice (replicate (Z.to_nat c) zero_value) n) 1.
Proof. intros. unfold make. by settle_tests. Qed.

Lemma length_blit l dlo src slo n :
  (dlo + n ≤ length l)%nat → (slo + n ≤ length src)%nat →
  length (blit l dlo src slo n) = length l.
Proof.
  intros. unfold blit. rewrite !length_app, !length_take, !length_drop. lia.
Qed.

(** Appending yields the old elements followed by the new ones, whether or
    not the array had to grow. *)
Lemma go_append_elems s xs :
  slice_ok s →
  ∃ s' n, go_append s xs = Done s' n
          ∧ elems s' = elems s ++ xs
          ∧ len s' = len s + Z.of_nat (length xs)
          ∧ slice_ok s'
          ∧ cap s ≤ cap s'
          ∧ take (Z.to_nat (len s)) (arr s') = elems s.
Proof.
  intros [H0 Hc]. unfold go_append, elems, slice_ok, cap in *.
  set (needed := len s + Z.of_nat (length xs)).
  destruct (Z.leb_spec needed (Z.of_nat (length (arr s)))) as [Hfit | Hgrow];
    eexists _, _; (split; [reflexivity |]); simpl.
  - assert (Hl : length (take (Z.to_nat (len s)) (arr s)) = Z.to_nat (len s))
      by (rewrite length_take; lia).
    repeat split.
    + rewrite app_assoc, take_app_length'; [done |].
      rewrite length_app, Hl. lia.
    + lia.
    + rewrite !length_app, Hl, length_drop. lia.
    + rewrite !length_app, Hl, length_drop. lia.
    + by rewrite take_app_length'.
  - assert (Hl : length (take (Z.to_nat (len s)) (arr s)) = Z.to_nat (len s))
      by (rewrite length_take; lia).
    repeat split.
    + rewrite app_assoc, take_app_length'; [done |].
      rewrite length_app, Hl. lia.
    + lia.
    + rewrite !length_app, Hl, length_replicate. lia.
    + rewrite !length_app, Hl, length_replicate. lia.
    + by rewrite take_app_length'.
Qed.
End slice_facts.

(** ** Facts about the methods *)

Ltac st_simpl :=
  cbn beta iota zeta delta [data size capacity len arr lo hi Nat.add fst snd orb andb].

Section method_facts.
Context {T : Type} {GT : GoType T} {RT : Runtime}.
Implicit Types (v : @Vector T) (s : slice T) (l : list T) (x : T).

Lemma Vector_eta v :
  {| data := data v; size := size v; capacity := capacity v |} = v.
Proof. by destruct v. Qed.

Lemma take_S_insert l (i : nat) x :
  (i < length l)%nat → take (S i) (<[i := x]> l) = take i l ++ [x].
Proof.
  intros Hi. rewrite (take_S_r _ _ x) by by apply list_lookup_insert_eq.
  by rewrite take_insert_ge.
Qed.

Lemma length_logical v : wf v → length (logical v) = Z.to_nat (size v).
Proof.
  intros [? ?]. unfold logical, cap in *. rewrite length_take. lia.
Qed.

Lemma contents_logical v :
  0 ≤ size v ≤ cap (data v) → contents v = Done (logical v) 0.
Proof.
  intros. unfold contents, Data. st_unfold. by rewrite slice_to_ok.
Qed.

Lemma reserve_ok v c :
  wf v → size v ≤ c →
  reserve c v
  = Done (tt, {| data := Slice (logical v ++ replicate (Z.to_nat (c - size v)) zero_value)
                               (size v);
                 size := size v; capacity := c |}) 1.
Proof.
  intros [Hs Hl] Hc. unfold reserve. st_unfold.
  rewrite make_ok by lia. simpl. do 3 f_equal.
  unfold copy, blit, logical. simpl.
  rewrite Z.min_l by lia. rewrite drop_replicate. do 3 f_equal. lia.
Qed.

Lemma growCapacity_ok v :
  growCapacity v
  = Done (if cap (data v) =? 0 then 1 else cap (data v) * 2, v) 0.
Proof. unfold growCapacity. st_unfold. by destruct (cap (data v) =? 0). Qed.

(** What one [PushBack] does to a well-formed vector. *)
Lemma PushBack_ok v x :
  wf v →
  let full := size v =? cap (data v) in
  let grown := if cap (data v) =? 0 then 1 else cap (data v) * 2 in
  ∃ v', PushBack x v = Done (tt, v') (if full then 1 else 0)
        ∧ size v' = size v + 1
        ∧ len (data v') = size v'
        ∧ cap (data v') = (if full then grown else cap (data v))
        ∧ capacity v' = (if full then grown else capacity v)
        ∧ logical v' = logical v ++ [x]
        ∧ wf v'.
Proof.
  intros Hwf full grown. pose proof Hwf as [Hs Hl].
  pose proof (cap_nonneg (data v)) as Hc.
  unfold PushBack. st_unfold. subst full.
  destruct (Z.eqb_spec (size v) (cap (data v))) as [Hfull | Hroom].
  - rewrite growCapacity_ok. fold grown. st_simpl.
    assert (size v < grown) by (subst grown; destruct (Z.eqb_spec (cap (data v)) 0); lia).
    rewrite (reserve_ok v grown Hwf) by lia. st_simpl.
    pose proof (length_logical v Hwf) as Hlen.
    assert (Hcap : cap (Slice (logical v ++ replicate (Z.to_nat (grown - size v)) zero_value) (size v)) = grown).
    { unfold cap. simpl. rewrite length_app, length_replicate, Hlen. lia. }
    rewrite slice_to_ok by (rewrite Hcap; lia). st_simpl.
    rewrite slice_set_ok by (simpl; lia). st_simpl.
    eexists. split; [reflexivity |]. st_simpl.
    assert (Hlen' : length (<[Z.to_nat (size v) := x]>
              (logical v ++ replicate (Z.to_nat (grown - size v)) zero_value)) = Z.to_nat grown).
    { rewrite length_insert, length_app, length_replicate, Hlen. lia. }
    unfold wf, cap. st_simpl. rewrite Hlen'.
    repeat split; try lia.
    unfold logical at 1. st_simpl.
    replace (Z.to_nat (size v + 1)) with (S (Z.to_nat (size v))) by lia.
    rewrite take_S_insert
      by (rewrite length_app, length_replicate, Hlen; lia).
    by rewrite take_app_length'.
  - st_simpl. rewrite slice_to_ok by lia. st_simpl.
    rewrite slice_set_ok by (simpl; lia). st_simpl.
    eexists. split; [reflexivity |]. st_simpl.
    unfold wf, cap in *. st_simpl. rewrite length_insert.
    repeat split; try lia.
    unfold logical. st_simpl.
    replace (Z.to_nat (size v + 1)) with (S (Z.to_nat (size v))) by lia.
    by rewrite take_S_insert by lia.
Qed.
End method_facts.

(** ** Growth of the capacity under repeated [PushBack] *)

Section growth.
Context {T : Type} {GT : GoType T} {RT : Runtime}.
Implicit Types (v : @Vector T) (x : T).

Lemma log2_up_succ_cases k :
  0 < k →
  Z.log2_up (k + 1)
  = if k =? 2 ^ Z.log2_up k then Z.log2_up k + 1 else Z.log2_up k.
Proof.
  intros Hk. change (k + 1) with (Z.succ k) at 1.
  destruct (Z.eqb_spec k (2 ^ Z.log2_up k)) as [Hpow | Hnot].
  - apply (Z.log2_up_eq_succ_iff_pow2 k Hk). eauto.
  - destruct (Z.log2_up_succ_or k) as [Hs | Hs]; [| done].
    apply (Z.log2_up_eq_succ_iff_pow2 k Hk) in Hs as [b Hb].
    destruct (Z.le_gt_cases 0 b).
    + exfalso. apply Hnot. rewrite Hb at 2. by rewrite Z.log2_up_pow2.
    + rewrite Z.pow_neg_r in Hb by lia. lia.
Qed.

Lemma grown_capacity_succ k :
  0 ≤ k →
  grown_capacity (k + 1)
  = if k =? grown_capacity k
    then (if grown_capacity k =? 0 then 1 else grown_capacity k * 2)
    else grown_capacity k.
Proof.
  intros Hk. unfold grown_capacity.
  destruct (Z.eqb_spec k 0) as [-> | Hk0]; [reflexivity |].
  rewrite (proj2 (Z.eqb_neq (k + 1) 0)) by lia.
  rewrite log2_up_succ_cases by lia.
  pose proof (Z.log2_up_nonneg k).
  destruct (Z.eqb_spec k (2 ^ Z.log2_up k)) as [Hpow | Hnot]; [| done].
  rewrite <- Hpow at 1. rewrite (proj2 (Z.eqb_neq k 0)) by lia.
  rewrite Z.pow_add_r by lia. lia.
Qed.

Lemma growth_steps_succ k :
  0 ≤ k →
  growth_steps (k + 1)
  = ((if (k =? grown_capacity k)%Z then 1 else 0) + growth_steps k)%nat.
Proof.
  intros Hk. unfold growth_steps, grown_capacity.
  destruct (Z.eqb_spec k 0) as [-> | Hk0]; [reflexivity |].
  rewrite (proj2 (Z.eqb_neq (k + 1) 0)) by lia.
  rewrite log2_up_succ_cases by lia.
  pose proof (Z.log2_up_nonneg k).
  destruct (Z.eqb_spec k (2 ^ Z.log2_up k)); lia.
Qed.

Lemma growth_steps_log k : (growth_steps k ≤ 2 + Z.to_nat (Z.log2 k))%nat.
Proof.
  unfold growth_steps. destruct (Z.eqb_spec k 0); [lia |].
  pose proof (Z.le_log2_up_succ_log2 k). pose proof (Z.log2_nonneg k). lia.
Qed.

Lemma push_all_pushed values : ∀ v k,
  pushed k v →
  ∃ v' n, push_all values v = Done (tt, v') n
          ∧ (n + growth_steps k)%nat = growth_steps (k + Z.of_nat (length values))
          ∧ pushed (k + Z.of_nat (length values)) v'
          ∧ logical v' = logical v ++ values.
Proof.
  induction values as [| x rest IH]; intros v k (Hwf & Hk & Hcap & Hcapacity).
  - exists v, 0%nat. cbn [length Z.of_nat]. rewrite Z.add_0_r, app_nil_r.
    split; [reflexivity |]. split; [reflexivity |]. by split.
  - destruct (PushBack_ok v x Hwf) as (v1 & Hrun & Hs1 & _ & Hc1 & Hcy1 & Hl1 & Hwf1).
    assert (Hk0 : 0 ≤ k) by (destruct Hwf; lia).
    assert (Hp1 : pushed (k + 1) v1).
    { split; [done |]. split; [lia |].
      rewrite Hc1, Hcy1, Hcap, Hcapacity, Hk. rewrite grown_capacity_succ by done.
      by destruct (k =? grown_capacity k). }
    destruct (IH v1 (k + 1) Hp1) as (v' & n & Hrest & Hn & Hp' & Hl').
    replace (k + 1 + Z.of_nat (length rest))
      with (k + Z.of_nat (length (x :: rest))) in * by (simpl; lia).
    eexists v', _. split; [| split; [| split; [done |]]].
    + simpl. st_unfold. rewrite Hrun. st_simpl.
      rewrite Hrest. reflexivity.
    + rewrite <- Hn, growth_steps_succ by done.
      rewrite Hk, Hcap. lia.
    + rewrite Hl', Hl1, <- app_assoc. done.
Qed.
End growth.

(** ** The methods on well-formed vectors *)

Section well_formed.
Context {T : Type} {GT : GoType T} {RT : Runtime}.
Implicit Types (v : @Vector T) (s : slice T) (l : list T) (x : T).

(** [At] on a well-formed vector: the element inside the bounds, the error
    outside, never a panic. *)
Lemma At_ok v index :
  wf v →
  (0 ≤ index < size v →
   ∃ x, logical v !! Z.to_nat index = Some x
        ∧ At index v = Done (x, nil_error, v) 0)
  ∧ (¬ (0 ≤ index < size v) →
     At index v = Done (zero_value, errors_New "index out of bounds", v) 0).
Proof.
  intros [Hs Hl]. unfold At. st_unfold. split; intros Hi.
  - settle_tests. st_simpl.
    destruct (slice_get_ok (data v) index) as (x & Hx & ->); [lia | lia |].
    exists x. split; [| done].
    unfold logical. rewrite lookup_take_lt by lia. done.
  - destruct (Z.ltb_spec index 0); [done |].
    rewrite Z.geb_leb. by settle_tests.
Qed.

(** On an empty vector [Front], [Back] and [PopBack] return the error, in
    whatever state the rest of the vector is. *)
Lemma empty_container_errors v :
  size v = 0 →
  Front v = Done (zero_value, errors_New "vector is empty", v) 0
  ∧ Back v = Done (zero_value, errors_New "vector is empty", v) 0
  ∧ PopBack v = Done (errors_New "vector is empty", v) 0.
Proof.
  intros Hs. unfold Front, Back, PopBack. st_unfold. by rewrite Hs.
Qed.

(** [PopBack] on a non-empty vector only decrements the size. *)
Lemma PopBack_ok v :
  size v ≠ 0 →
  PopBack v
  = Done (nil_error,
          {| data := data v; size := size v - 1; capacity := capacity v |}) 0.
Proof. intros Hs. unfold PopBack. st_unfold. by settle_tests. Qed.

(** [Front] and [Back] on a well-formed, non-empty vector. *)
Lemma Front_Back_ok v :
  wf v → 0 < size v →
  ∃ x y, logical v !! 0%nat = Some x
         ∧ logical v !! Z.to_nat (size v - 1) = Some y
         ∧ Front v = Done (x, nil_error, v) 0
         ∧ Back v = Done (y, nil_error, v) 0.
Proof.
  intros [Hs Hl] Hpos. unfold Front, Back. st_unfold. settle_tests. st_simpl.
  destruct (slice_get_ok (data v) 0) as (x & Hx & ->); [lia | lia |].
  destruct (slice_get_ok (data v) (size v - 1)) as (y & Hy & ->); [lia | lia |].
  exists x, y. unfold logical. rewrite !lookup_take_lt by lia. done.
Qed.

Lemma PopBack_wf v : wf v → ∀ e v' n, PopBack v = Done (e, v') n → wf v'.
Proof.
  intros [Hs Hl] e v' n. unfold PopBack. st_unfold.
  destruct (Z.eqb_spec (size v) 0); intros [= <- <- <-]; unfold wf; st_simpl; lia.
Qed.
End well_formed.

(** ** [Insert] and [Erase] on well-formed vectors *)

Section insert_erase.
Context {T : Type} {GT : GoType T} {RT : Runtime}.
Implicit Types (v : @Vector T) (s : slice T) (l : list T) (x : T).

Lemma take_prefix_eq l1 l2 (n m : nat) :
  take m l1 = take m l2 → (n ≤ m)%nat → take n l1 = take n l2.
Proof.
  intros Heq Hle.
  rewrite <- (Nat.min_l n m Hle), <- !take_take. by rewrite Heq.
Qed.

(** Shifting the slots [i, s) one to the right and storing [x] at [i]. *)
Lemma blit_shift_right l (i s : nat) x :
  (i ≤ s)%nat → (s < length l)%nat →
  take (S s) (<[i := x]> (blit l (S i) l i (s - i)))
  = take i l ++ x :: take (s - i) (drop i l).
Proof.
  intros His Hsl. unfold blit.
  rewrite take_insert_lt by lia.
  rewrite app_assoc, take_app_length'
    by (rewrite length_app, !length_take, length_drop; lia).
  rewrite insert_app_l by (rewrite length_take; lia).
  rewrite <- take_insert_lt by lia.
  rewrite take_S_insert by lia.
  by rewrite <- app_assoc.
Qed.

(** Shifting the slots [i + 1, s) one to the left. *)
Lemma blit_shift_left l (i s : nat) :
  (i < s)%nat → (s ≤ length l)%nat →
  take (s - 1) (blit l i l (S i) (s - 1 - i))
  = take i l ++ take (s - 1 - i) (drop (S i) l).
Proof.
  intros His Hsl. unfold blit.
  rewrite app_assoc, take_app_length'; [done |].
  rewrite length_app, !length_take, length_drop. lia.
Qed.

(** [Insert] on a full array: one allocation by [reserve], then [Insert] on
    the vector that [reserve] leaves, which has room. *)
Lemma Insert_full v index x :
  wf v → 0 ≤ index ≤ size v → size v = cap (data v) →
  let grown := if cap (data v) =? 0 then 1 else cap (data v) * 2 in
  let v1 := {| data := Slice (logical v ++ replicate (Z.to_nat (grown - size v)) zero_value)
                             (size v);
               size := size v; capacity := grown |} in
  Insert index x v
  = match Insert index x v1 with
    | Done r n => Done r (1 + n)
    | Panic e => Panic e
    end
  ∧ wf v1 ∧ size v1 < cap (data v1) ∧ logical v1 = logical v.
Proof.
  intros Hwf Hi Hfull grown v1. pose proof Hwf as [Hs Hl].
  pose proof (length_logical v Hwf) as Hlen.
  assert (Hg : size v < grown)
    by (subst grown; destruct (Z.eqb_spec (cap (data v)) 0); lia).
  assert (Hcap1 : cap (Slice (logical v ++ replicate (Z.to_nat (grown - size v)) zero_value)
                             (size v)) = grown).
  { unfold cap. st_simpl. rewrite length_app, length_replicate, Hlen. lia. }
  subst v1. unfold wf. st_simpl. rewrite Hcap1. repeat split; try lia.
  - unfold Insert. st_unfold. st_simpl. rewrite Hcap1.
    settle_tests. st_simpl.
    rewrite growCapacity_ok. fold grown. st_simpl.
    rewrite (reserve_ok v grown Hwf) by lia. st_simpl.
    destruct (go_append _ _) as [s' n |]; [| done]. st_simpl.
    destruct (slice_from _ _) as [a na |]; [| done]. st_simpl.
    destruct (slice_range _ _ _) as [b nb |]; [| done]. st_simpl.
    destruct (slice_set _ _ _) as [c nc |]; [| done]. st_simpl.
    done.
  - unfold logical at 1. st_simpl. by rewrite take_app_length'.
Qed.

(** [Insert] when the array has room: the append, the shift and the store. *)
Lemma Insert_room v index x :
  wf v → 0 ≤ index ≤ size v → size v ≠ cap (data v) →
  ∃ v' n, Insert index x v = Done (nil_error, v') n
          ∧ size v' = size v + 1
          ∧ logical v'
            = take (Z.to_nat index) (logical v) ++ x :: drop (Z.to_nat index) (logical v)
          ∧ wf v'
          ∧ capacity v' = capacity v
          ∧ len (data v') = len (data v) + 1.
Proof.
  intros Hwf Hi Hroom. pose proof Hwf as [Hs Hl].
  destruct (go_append_elems (data v) [zero_value])
    as (s' & n & Happ & Hel & Hlen & [Hok0 Hok] & Hcap & Hpre); [split; lia |].
  cbn [length Z.of_nat Pos.of_succ_nat] in Hlen.
  unfold Insert. st_unfold. st_simpl. settle_tests. st_simpl.
  rewrite Happ. st_simpl.
  rewrite slice_from_ok by lia. st_simpl.
  rewrite slice_range_ok by lia. st_simpl.
  rewrite slice_set_ok by (unfold copy_within; st_simpl; lia). st_simpl.
  eexists _, _. split; [reflexivity |]. st_simpl.
  unfold copy_within, wf, cap in *. st_simpl.
  rewrite Z.min_r by lia.
  rewrite length_insert, length_blit by lia.
  repeat split; try lia.
  unfold logical. st_simpl.
  replace (Z.to_nat (size v + 1)) with (S (Z.to_nat (size v))) by lia.
  replace (Z.to_nat (index + 1)) with (S (Z.to_nat index)) by lia.
  replace (Z.to_nat (size v - index))
    with (Z.to_nat (size v) - Z.to_nat index)%nat by lia.
  rewrite blit_shift_right by lia.
  assert (Hsz : take (Z.to_nat (size v)) (arr s')
                = take (Z.to_nat (size v)) (arr (data v))).
  { apply (take_prefix_eq _ _ _ (Z.to_nat (len (data v)))); [done | lia]. }
  rewrite take_take, Nat.min_l by lia.
  rewrite take_drop_commute.
  replace (Z.to_nat index + (Z.to_nat (size v) - Z.to_nat index))%nat
    with (Z.to_nat (size v)) by lia.
  rewrite Hsz. f_equal.
  apply (take_prefix_eq _ _ _ (Z.to_nat (size v))); [done | lia].
Qed.

(** [Insert] on a well-formed vector, inside the bounds. *)
Lemma Insert_ok v index x :
  wf v → 0 ≤ index ≤ size v →
  ∃ v' n, Insert index x v = Done (nil_error, v') n
          ∧ size v' = size v + 1
          ∧ logical v'
            = take (Z.to_nat index) (logical v) ++ x :: drop (Z.to_nat index) (logical v)
          ∧ wf v'.
Proof.
  intros Hwf Hi.
  destruct (Z.eq_dec (size v) (cap (data v))) as [Hfull | Hroom].
  - destruct (Insert_full v index x Hwf Hi Hfull) as (Heq & Hwf1 & Hlt & Hlog).
    revert Heq Hwf1 Hlt Hlog.
    set (v1 := Build_Vector _ _ _). st_simpl. intros Heq Hwf1 Hlt Hlog.
    destruct (Insert_room v1 index x Hwf1) as (v' & n & Hrun & Hs' & Hl' & Hwf' & _ & _);
      [done | lia |].
    exists v', (S n). rewrite Heq, Hrun, Hs', Hl', Hlog.
    split; [reflexivity |]. split; [reflexivity |]. by split.
  - destruct (Insert_room v index x Hwf Hi Hroom) as (v' & n & ? & ? & ? & ? & _ & _).
    by exists v', n.
Qed.

(** [Erase] on a well-formed vector, inside the bounds. *)
Lemma Erase_ok v index :
  wf v → 0 ≤ index < size v →
  ∃ v', Erase index v = Done (nil_error, v') 0
        ∧ size v' = size v - 1
        ∧ logical v'
          = take (Z.to_nat index) (logical v) ++ drop (S (Z.to_nat index)) (logical v)
        ∧ wf v'
        ∧ capacity v' = capacity v
        ∧ cap (data v') = cap (data v).
Proof.
  intros [Hs Hl] Hi. pose proof (cap_nonneg (data v)).
  unfold Erase. st_unfold. st_simpl. settle_tests. st_simpl.
  rewrite slice_from_ok by lia. st_simpl.
  rewrite slice_range_ok by lia. st_simpl.
  assert (Hcap : cap (copy_within (data v) (Window index (len (data v)))
                        (Window (index + 1) (size v))) = cap (data v)).
  { unfold copy_within, cap in *. st_simpl. rewrite length_blit; lia. }
  rewrite slice_to_ok by (rewrite Hcap; lia). st_simpl.
  eexists. split; [reflexivity |]. unfold wf. st_simpl.
  change (cap (Slice ?a ?n)) with (Z.of_nat (length a)).
  unfold copy_within, cap in *. st_simpl. rewrite length_blit by lia.
  repeat split; try lia.
  unfold logical. st_simpl.
  rewrite Z.min_r by lia.
  replace (Z.to_nat (size v - 1)) with (Z.to_nat (size v) - 1)%nat by lia.
  replace (Z.to_nat (index + 1)) with (S (Z.to_nat index)) by lia.
  replace (Z.to_nat (size v - (index + 1)))
    with (Z.to_nat (size v) - 1 - Z.to_nat index)%nat by lia.
  rewrite blit_shift_left by lia.
  rewrite take_take, Nat.min_l by lia. f_equal.
  rewrite take_drop_commute. f_equal. f_equal. lia.
Qed.

(** On a well-formed vector [Insert(i, x)] followed by [Erase(i)] succeeds
    twice and gives back the size and the logical sequence. *)
Lemma Insert_Erase_restores v index x :
  wf v → 0 ≤ index ≤ size v →
  ∃ v1 n v2,
    Insert index x v = Done (nil_error, v1) n
    ∧ Erase index v1 = Done (nil_error, v2) 0
    ∧ size v2 = size v
    ∧ contents v2 = contents v
    ∧ wf v2.
Proof.
  intros Hwf Hi.
  destruct (Insert_ok v index x Hwf Hi) as (v1 & n & Hins & Hs1 & Hl1 & Hwf1).
  destruct (Erase_ok v1 index Hwf1) as (v2 & Hera & Hs2 & Hl2 & Hwf2 & _);
    [lia |].
  exists v1, n, v2.
  split; [done |]. split; [done |]. split; [lia |]. split; [| done].
  pose proof Hwf as [? ?]. pose proof Hwf2 as [? ?].
  rewrite !contents_logical by lia. f_equal.
  pose proof (length_logical v Hwf) as Hlen.
  rewrite Hl2, Hl1.
  rewrite take_app_length' by (rewrite length_take; lia).
  rewrite cons_middle, app_assoc.
  rewrite drop_app_length' by (rewrite length_app, length_take; simpl; lia).
  apply take_drop.
Qed.
End insert_erase.

(** ** [Resize] and the loop that fills *)

Section resize.
Context {T : Type} {GT : GoType T} {RT : Runtime}.
Implicit Types (v : @Vector T) (s : slice T) (l : list T) (x : T).

Lemma slice_eta s : Slice (arr s) (len s) = s.
Proof. by destruct s. Qed.

(** A loop that stores [x] into the slots [i, i + fuel) of the data slice. *)
Lemma fill_loop (body : Z → ST (@Vector T) unit) x :
  (∀ i v, body i v
          = match slice_set (data v) i x with
            | Done d n =>
                Done (tt, {| data := d; size := size v; capacity := capacity v |}) n
            | Panic e => Panic e
            end) →
  ∀ fuel i v,
    0 ≤ i → i + Z.of_nat fuel ≤ len (data v) → len (data v) ≤ cap (data v) →
    for_loop fuel i body v
    = Done (tt, {| data := Slice (take (Z.to_nat i) (arr (data v)) ++ replicate fuel x
                                    ++ drop (Z.to_nat i + fuel) (arr (data v)))
                                 (len (data v));
                   size := size v; capacity := capacity v |}) 0.
Proof.
  intros Hbody. induction fuel as [| fuel IH]; intros i v Hi Hlen Hcap.
  - cbn [for_loop replicate app]. rewrite Nat.add_0_r, take_drop, slice_eta, Vector_eta.
    reflexivity.
  - cbn [for_loop]. st_unfold. rewrite Hbody, slice_set_ok by lia.
    rewrite IH by (st_simpl; unfold cap in *; st_simpl; rewrite ?length_insert; lia).
    st_simpl. do 4 f_equal. unfold cap in *.
    replace (Z.to_nat (i + 1)) with (S (Z.to_nat i)) by lia.
    rewrite take_S_insert by lia.
    rewrite drop_insert_lt by lia.
    rewrite <- app_assoc. cbn [replicate app]. do 4 f_equal. lia.
Qed.

(** [Resize] on a well-formed vector. *)
Lemma Resize_ok v newSize x :
  wf v →
  let n := Z.max 0 newSize in
  ∃ v', Resize newSize x v = Done (tt, v') (if cap (data v) <? n then 1 else 0)
        ∧ size v' = n
        ∧ logical v'
          = take (Z.to_nat n) (logical v) ++ replicate (Z.to_nat (n - size v)) x
        ∧ cap (data v') = Z.max n (cap (data v))
        ∧ capacity v' = (if cap (data v) <? n then n else capacity v)
        ∧ wf v'.
Proof.
  intros Hwf n. pose proof Hwf as [Hs Hl].
  pose proof (length_logical v Hwf) as Hlen.
  assert (Hn : (if newSize <? 0 then 0 else newSize) = n)
    by (subst n; destruct (Z.ltb_spec newSize 0); lia).
  assert (Hn0 : 0 ≤ n) by lia. clearbody n.
  unfold Resize. rewrite Hn. st_unfold. st_simpl. rewrite !Z.gtb_ltb.
  destruct (Z.ltb_spec (cap (data v)) n) as [Hgrow | Hfit].
  - rewrite (reserve_ok v n Hwf) by lia. st_simpl.
    set (A := logical v ++ replicate (Z.to_nat (n - size v)) zero_value).
    assert (HA : length A = Z.to_nat n)
      by (subst A; rewrite length_app, length_replicate, Hlen; lia).
    assert (Hcap : ∀ m, cap (Slice A m) = n) by (intros m; unfold cap; st_simpl; lia).
    rewrite slice_to_ok by (rewrite Hcap; lia). st_simpl.
    settle_tests. unfold for_range.
    erewrite (fill_loop _ x); st_simpl; rewrite ?Hcap; try lia.
    2:{ intros i w. destruct (slice_set _ _ _); st_simpl; [| done].
        by rewrite Nat.add_0_r. }
    assert (Harr : take (Z.to_nat (size v)) A
                     ++ replicate (Z.to_nat (n - size v)) x
                     ++ drop (Z.to_nat (size v) + Z.to_nat (n - size v)) A
                   = logical v ++ replicate (Z.to_nat (n - size v)) x).
    { rewrite (drop_ge A) by lia. rewrite app_nil_r. f_equal.
      subst A. by rewrite take_app_length'. }
    rewrite Harr.
    eexists. split; [reflexivity |]. unfold wf, cap. st_simpl.
    rewrite length_app, length_replicate, Hlen.
    unfold cap in *. repeat split; try lia.
    unfold logical at 1. st_simpl.
    rewrite (take_ge (logical v)) by lia.
    apply take_ge. rewrite length_app, length_replicate, Hlen. lia.
  - st_simpl. rewrite slice_to_ok by lia. st_simpl.
    destruct (Z.ltb_spec (size v) n) as [Hmore | Hless].
    + unfold for_range.
      erewrite (fill_loop _ x); st_simpl; try (unfold cap in *; st_simpl; lia).
      2:{ intros i w. destruct (slice_set _ _ _); st_simpl; [| done].
          by rewrite Nat.add_0_r. }
      eexists. split; [reflexivity |]. unfold wf, cap in *. st_simpl.
      rewrite !length_app, length_take, length_replicate, length_drop.
      repeat split; try lia.
      unfold logical. st_simpl.
      rewrite (take_ge (take _ _)) by (rewrite length_take; lia).
      rewrite app_assoc, take_app_length'; [done |].
      rewrite length_app, length_take, length_replicate. lia.
    + eexists. split; [reflexivity |]. unfold wf, logical, cap in *. st_simpl.
      replace (Z.to_nat (n - size v)) with 0%nat by lia.
      rewrite take_take, Nat.min_l, app_nil_r by lia.
      repeat split; lia.
Qed.
End resize.

(** ** The other methods and the options *)

Section other_methods.
Context {T : Type} {GT : GoType T} {RT : Runtime}.
Implicit Types (v : @Vector T) (s : slice T) (l : list T) (x : T).

Lemma Clear_wf v : ∀ v' n, Clear v = Done (tt, v') n → wf v'.
Proof.
  intros v' n. unfold Clear. st_unfold. st_simpl.
  pose proof (cap_nonneg (data v)).
  rewrite slice_to_ok by lia. st_simpl.
  intros [= <- <-]. unfold wf, cap in *. st_simpl. lia.
Qed.

(** [Reserve] keeps the elements and never shrinks. *)
Lemma Reserve_ok v newCapacity :
  wf v →
  ∃ v' n, Reserve newCapacity v = Done (tt, v') n
          ∧ size v' = size v
          ∧ logical v' = logical v
          ∧ cap (data v') = Z.max newCapacity (cap (data v))
          ∧ wf v'.
Proof.
  intros Hwf. pose proof Hwf as [Hs Hl].
  pose proof (length_logical v Hwf) as Hlen.
  unfold Reserve. st_unfold. st_simpl. rewrite Z.gtb_ltb.
  destruct (Z.ltb_spec (cap (data v)) newCapacity) as [Hgrow | Hfit].
  - rewrite (reserve_ok v newCapacity Hwf) by lia.
    eexists _, _. split; [reflexivity |]. unfold wf, logical, cap in *. st_simpl.
    rewrite length_app, length_replicate, length_take.
    repeat split; try lia.
    rewrite take_app_length'; [done |]. rewrite length_take. lia.
  - eexists _, _. split; [reflexivity |].
    split; [done |]. split; [done |]. split; [lia | done].
Qed.

(** [Assign] replaces the contents. *)
Lemma Assign_ok v (values : list T) :
  ∃ v' n, Assign values v = Done (tt, v') n
          ∧ size v' = Z.of_nat (length values)
          ∧ logical v' = values
          ∧ capacity v' = cap (data v')
          ∧ wf v'.
Proof.
  destruct (go_append_elems (Slice [] 0) values)
    as (s' & n & Happ & Hel & Hlen & [Hok0 Hok] & _ & _); [by compute |].
  unfold Assign. st_unfold. rewrite Happ. st_simpl.
  eexists _, _. split; [reflexivity |]. unfold wf, logical. st_simpl.
  revert Hel Hlen. unfold elems. st_simpl. rewrite Z.add_0_l.
  intros Hel Hlen. rewrite <- Hlen, Hel. repeat split; lia.
Qed.

(** [WithCapacity] keeps the size, whatever the new capacity: the result is
    well formed exactly when the size fits. *)
Lemma WithCapacity_ok v n :
  let c := Z.max 0 n in
  WithCapacity n v
  = Done (tt, {| data := Slice (replicate (Z.to_nat c) zero_value) c;
                 size := size v; capacity := c |}) 1
  ∧ (wf {| data := Slice (replicate (Z.to_nat c) zero_value) c;
           size := size v; capacity := c |} ↔ 0 ≤ size v ≤ c).
Proof.
  intros c.
  assert (Hc : (if n <? 0 then 0 else n) = c)
    by (subst c; destruct (Z.ltb_spec n 0); lia).
  assert (Hc0 : 0 ≤ c) by lia. clearbody c.
  unfold WithCapacity. rewrite Hc. st_unfold. rewrite make_ok by lia.
  split; [reflexivity |]. unfold wf, cap. st_simpl. rewrite length_replicate. lia.
Qed.

Lemma WithSize_ok v n (defaultValue : T) :
  let c := Z.max 0 n in
  WithSize n defaultValue v
  = Done (tt, {| data := Slice (replicate (Z.to_nat c) defaultValue) c;
                 size := c; capacity := c |}) 1.
Proof.
  intros c.
  assert (Hc : (if n <? 0 then 0 else n) = c)
    by (subst c; destruct (Z.ltb_spec n 0); lia).
  assert (Hc0 : 0 ≤ c) by lia. clearbody c.
  unfold WithSize. rewrite Hc. st_unfold. rewrite make_ok by lia. st_simpl.
  unfold for_range.
  erewrite (fill_loop _ defaultValue); st_simpl;
    try (unfold cap; st_simpl; rewrite ?length_replicate; lia).
  2:{ intros i w. destruct (slice_set _ _ _); st_simpl; [| done].
      by rewrite Nat.add_0_r. }
  do 4 f_equal. rewrite Z.sub_0_r. cbn [Z.to_nat take app Nat.add].
  rewrite drop_ge by (rewrite length_replicate; lia). apply app_nil_r.
Qed.

(** A loop that appends [x] to the data slice [fuel] times. *)
Lemma append_loop (body : Z → ST (@Vector T) unit) x :
  (∀ i v, body i v
          = match go_append (data v) [x] with
            | Done d n =>
                Done (tt, {| data := d; size := size v; capacity := capacity v |}) n
            | Panic e => Panic e
            end) →
  ∀ fuel i v,
    slice_ok (data v) →
    ∃ v' n, for_loop fuel i body v = Done (tt, v') n
            ∧ slice_ok (data v')
            ∧ elems (data v') = elems (data v) ++ replicate fuel x
            ∧ len (data v') = len (data v) + Z.of_nat fuel
            ∧ size v' = size v ∧ capacity v' = capacity v.
Proof.
  intros Hbody. induction fuel as [| fuel IH]; intros i v Hok.
  - exists v, 0%nat. cbn [for_loop replicate]. rewrite app_nil_r.
    unfold slice_ok in *. repeat split; try done; lia.
  - destruct (go_append_elems (data v) [x] Hok)
      as (s' & n & Happ & Hel & Hlen & Hok' & _ & _).
    destruct (IH (i + 1) {| data := s'; size := size v; capacity := capacity v |} Hok')
      as (v' & n' & Hrun & Hok'' & Hel'' & Hlen'' & Hs & Hc).
    exists v', (n + n')%nat. cbn [for_loop]. st_unfold.
    rewrite Hbody, Happ, Hrun. revert Hel'' Hlen'' Hs Hc. st_simpl.
    intros -> -> -> ->. rewrite Hel, Hlen, <- app_assoc.
    cbn [length]. unfold slice_ok in *. repeat split; try done; lia.
Qed.

Lemma WithFill_ok v count x :
  slice_ok (data v) →
  ∃ v' n, WithFill count x v = Done (tt, v') n
          ∧ logical v' = elems (data v) ++ replicate (Z.to_nat count) x
          ∧ size v' = len (data v) + Z.max 0 count
          ∧ capacity v' = Z.max (capacity v) (size v')
          ∧ tidy v'.
Proof.
  intros Hok. unfold WithFill, for_range. st_unfold.
  match goal with
  | |- context [for_loop ?k ?j ?body v] =>
      assert (Hbody : ∀ i w, body i w
                = match go_append (data w) [x] with
                  | Done d n =>
                      Done (tt, {| data := d; size := size w; capacity := capacity w |}) n
                  | Panic e => Panic e
                  end)
        by (intros i w; destruct (go_append _ _); st_simpl;
            [by rewrite Nat.add_0_r | done]);
      destruct (append_loop body x Hbody k j v Hok)
        as (v1 & n & Hrun & [Hok0 Hok1] & Hel & Hlen & Hs & Hc);
      rewrite Hrun
  end.
  st_simpl. rewrite Z.sub_0_r in *.
  destruct (Z.ltb_spec (capacity v1) (len (data v1))); st_simpl;
    (eexists _, _; split; [reflexivity |]);
    unfold tidy, wf, logical; st_simpl; fold (elems (data v1));
    rewrite Hel; repeat split; lia.
Qed.

Lemma FromSlice_ok v (values : list T) :
  slice_ok (data v) →
  ∃ v' n, FromSlice values v = Done (tt, v') n
          ∧ logical v' = elems (data v) ++ values
          ∧ size v' = len (data v) + Z.of_nat (length values)
          ∧ capacity v' = size v'
          ∧ tidy v'.
Proof.
  intros Hok.
  destruct (go_append_elems (data v) values Hok)
    as (s' & n & Happ & Hel & Hlen & [Hok0 Hok1] & _ & _).
  unfold FromSlice. st_unfold. rewrite Happ. st_simpl.
  eexists _, _. split; [reflexivity |].
  unfold tidy, wf, logical. st_simpl. fold (elems s'). rewrite Hel.
  repeat split; lia.
Qed.

(** Two distinct vectors exchange storage, size and capacity, and nothing is
    allocated or copied. *)
Lemma Swap_distinct (h : gmap positive (@Vector T)) (p q : ptr) (a b : @Vector T) :
  p ≠ q → h !! p = Some a → h !! q = Some b →
  ∃ h', Swap p q h = Done (tt, h') 0
        ∧ h' !! p = Some b ∧ h' !! q = Some a
        ∧ ∀ r, r ≠ p → r ≠ q → h' !! r = h !! r.
Proof.
  intros Hne Hp Hq. unfold Swap, deref, call. st_unfold.
  repeat (rewrite ?Hp, ?Hq, ?lookup_insert_eq, ?lookup_insert_ne by done;
          st_simpl).
  eexists. split; [reflexivity |].
  rewrite lookup_insert_ne, !lookup_insert_eq, ?Vector_eta by done.
  split; [done |]. split; [done |].
  intros r Hrp Hrq. by rewrite !lookup_insert_ne by done.
Qed.
End other_methods.

(** ** The scenarios of the specification *)

(** [New(WithValues(1, 2, 3))], then [Insert(1, 99)], [Erase(0)],
    [Resize(5, 0)] and [Clear()], on a runtime that doubles. *)
Example scenario_edit :
  let v0 := {| data := Slice [1; 2; 3] 3; size := 3; capacity := 3 |} in
  let v1 := {| data := Slice [1; 99; 2; 3; 0; 0] 4; size := 4; capacity := 6 |} in
  let v2 := {| data := Slice [99; 2; 3; 3; 0; 0] 3; size := 3; capacity := 6 |} in
  let v3 := {| data := Slice [99; 2; 3; 0; 0; 0] 5; size := 5; capacity := 6 |} in
  let v4 := {| data := Slice [99; 2; 3; 0; 0; 0] 0; size := 0; capacity := 6 |} in
  New [WithValues (RT:=doubling) [1; 2; 3]] = Done v0 2
  ∧ Size v0 = Done (3, v0) 0
  ∧ At 1 v0 = Done (2, nil_error, v0) 0
  ∧ Insert (RT:=doubling) 1 99 v0 = Done (nil_error, v1) 1
  ∧ contents v1 = Done [1; 99; 2; 3] 0
  ∧ Erase 0 v1 = Done (nil_error, v2) 0
  ∧ contents v2 = Done [99; 2; 3] 0
  ∧ Resize 5 0 v2 = Done (tt, v3) 0
  ∧ contents v3 = Done [99; 2; 3; 0; 0] 0
  ∧ Clear v3 = Done (tt, v4) 0.
Proof. repeat split; vm_compute; reflexivity. Qed.

(** [New(WithCapacity(2))] and three pushes: the capacity doubles once, on
    the third push. *)
Example scenario_push :
  let v0 := {| data := Slice [0; 0] 2; size := 0; capacity := 2 |} in
  let v1 := {| data := Slice [1; 0] 1; size := 1; capacity := 2 |} in
  let v2 := {| data := Slice [1; 2] 2; size := 2; capacity := 2 |} in
  let v3 := {| data := Slice [1; 2; 3; 0] 3; size := 3; capacity := 4 |} in
  New [WithCapacity 2] = Done v0 2
  ∧ PushBack 1 v0 = Done (tt, v1) 0
  ∧ PushBack 2 v1 = Done (tt, v2) 0
  ∧ PushBack 3 v2 = Done (tt, v3) 1.
Proof. repeat split; vm_compute; reflexivity. Qed.

(** A = [1, 2] and B = [9]: after [A.Swap(B)] A is [9] and B is [1, 2], and
    nothing was allocated. *)
Example scenario_swap :
  let a := {| data := Slice [1; 2] 2; size := 2; capacity := 2 |} in
  let b := {| data := Slice [9] 1; size := 1; capacity := 1 |} in
  New [WithValues (RT:=tight) [1; 2]] = Done a 2
  ∧ New [WithValues (RT:=tight) [9]] = Done b 2
  ∧ ∃ h', Swap 1%positive 2%positive (<[2%positive := b]> {[1%positive := a]})
          = Done (tt, h') 0
          ∧ h' !! 1%positive = Some b ∧ h' !! 2%positive = Some a.
Proof.
  intros a b. split; [reflexivity |]. split; [reflexivity |].
  destruct (Swap_distinct (<[2%positive := b]> {[1%positive := a]})
              1%positive 2%positive a b) as (h' & Hrun & Ha & Hb & _);
    [done | by simplify_map_eq | by simplify_map_eq |].
  by exists h'.
Qed.

(** ** The claims that hold in every state *)

Section claims.
Context {T : Type} {GT : GoType T} {RT : Runtime}.
Implicit Types (v : @Vector T) (x : T).

(** C5.  Pushing N values onto [New()] succeeds, allocates a backing array
    [growth_steps N] times, which is at most 2 + log2 N, and leaves size N
    and capacity [grown_capacity N], the N-th term of 0, 1, 2, 4, 4, 8, ...;
    the next push reallocates exactly when it finds size = capacity, to 1
    from capacity 0 and to twice the capacity otherwise. *)
Theorem PushBack_capacity_doubles (values : list T) :
  let N := Z.of_nat (length values) in
  ∃ v0 v,
    New [] = Done v0 1 ∧ size v0 = 0 ∧ capacity v0 = 0
    ∧ push_all values v0 = Done (tt, v) (growth_steps N)
    ∧ size v = N
    ∧ capacity v = grown_capacity N
    ∧ cap (data v) = capacity v
    ∧ contents v = Done values 0
    ∧ (growth_steps N ≤ 2 + Z.to_nat (Z.log2 N))%nat
    ∧ ∀ x, ∃ v',
        PushBack x v = Done (tt, v') (if size v =? capacity v then 1 else 0)
        ∧ capacity v'
          = if size v =? capacity v
            then (if capacity v =? 0 then 1 else capacity v * 2)
            else capacity v.
Proof.
  intros N.
  set (v0 := {| data := Slice [] 0; size := 0; capacity := 0 |} : @Vector T).
  assert (Hv0 : pushed 0 v0) by (by compute).
  destruct (push_all_pushed values v0 0 Hv0)
    as (v & n & Hrun & Hn & (Hwf & Hs & Hc & Hcy) & Hl).
  rewrite Z.add_0_l in *. fold N in Hn, Hs, Hc, Hcy.
  change (growth_steps 0) with 0%nat in Hn. rewrite Nat.add_0_r in Hn. subst n.
  exists v0, v. repeat split; try done.
  - congruence.
  - rewrite contents_logical by (destruct Hwf; lia). by rewrite Hl.
  - apply growth_steps_log.
  - intros x.
    destruct (PushBack_ok v x Hwf) as (v' & Hpush & _ & _ & _ & Hcy' & _).
    exists v'. rewrite Hpush, Hcy', Hc, Hcy. split; [done |].
    by destruct (size v =? grown_capacity N).
Qed.

(** C8.  [Clear] sets the size to 0, allocates nothing, keeps the backing
    array and the capacity, and [Capacity] still reports the capacity from
    before. *)
Theorem Clear_keeps_capacity v :
  ∃ v', Clear v = Done (tt, v') 0
        ∧ size v' = 0
        ∧ capacity v' = capacity v
        ∧ arr (data v') = arr (data v)
        ∧ Capacity v' = Done (capacity v, v') 0.
Proof.
  eexists. split.
  - unfold Clear. st_unfold. st_simpl.
    rewrite slice_to_ok by (pose proof (cap_nonneg (data v)); lia).
    reflexivity.
  - by repeat split.
Qed.

(** C9.  Swapping a vector with itself changes nothing: the call returns,
    allocates nothing, and the heap, with the size, the capacity and the data
    of the vector in it, is what it was.  (On a nil pointer it panics.) *)
Theorem Swap_self (h : gmap positive (@Vector T)) (p : ptr) :
  Swap p p h
  = match h !! p with
    | Some _ => Done (tt, h) 0
    | None => Panic NilDereference
    end.
Proof.
  unfold Swap, deref, call. st_unfold.
  destruct (h !! p) as [v |] eqn:Hp; [| done]. st_simpl.
  repeat (rewrite ?Hp, ?lookup_insert_eq, ?insert_insert_eq; st_simpl;
          rewrite ?Vector_eta).
  by rewrite insert_id.
Qed.

(** C10.  [At], [Front] and [Back] leave the vector as it is: whenever one
    of them returns, with an element or with an error, the state it returns
    in is the state it was called in, and nothing was allocated. *)
Theorem queries_do_not_modify v :
  (∀ index,
      At index v = Done (zero_value, errors_New "index out of bounds", v) 0
      ∨ (∃ x, At index v = Done (x, nil_error, v) 0)
      ∨ (∃ e, At index v = Panic e))
  ∧ (Front v = Done (zero_value, errors_New "vector is empty", v) 0
      ∨ (∃ x, Front v = Done (x, nil_error, v) 0)
      ∨ (∃ e, Front v = Panic e))
  ∧ (Back v = Done (zero_value, errors_New "vector is empty", v) 0
      ∨ (∃ x, Back v = Done (x, nil_error, v) 0)
      ∨ (∃ e, Back v = Panic e)).
Proof.
  split; [intros index | split].
  - unfold At. st_unfold.
    destruct ((index <? 0) || (index >=? size v)); [by left | right].
    destruct (slice_get_cases (data v) index) as [[x ->] | ->];
      [left | right]; eauto.
  - unfold Front. st_unfold.
    destruct (size v =? 0); [by left | right].
    destruct (slice_get_cases (data v) 0) as [[x ->] | ->];
      [left | right]; eauto.
  - unfold Back. st_unfold.
    destruct (size v =? 0); [by left | right].
    destruct (slice_get_cases (data v) (size v - 1)) as [[x ->] | ->];
      [left | right]; eauto.
Qed.
End claims.

(** ** [WithValues] and the options before it *)

Section WithValues_facts.
Context {T : Type} {GT : GoType T} {RT : Runtime}.
Implicit Types (v : @Vector T).

(** [WithValues] on any vector: it appends to the data slice as it is. *)
Lemma WithValues_ok v (values : list T) :
  slice_ok (data v) →
  ∃ v' n, WithValues values v = Done (tt, v') n
          ∧ logical v' = elems (data v) ++ values
          ∧ size v' = len (data v) + Z.of_nat (length values)
          ∧ capacity v' = Z.max (capacity v) (size v')
          ∧ tidy v'.
Proof.
  intros Hok.
  destruct (go_append_elems (data v) values Hok)
    as (s' & n & Happ & Hel & Hlen & [Hok0 Hok1] & _ & _).
  unfold WithValues. st_unfold. rewrite Happ. st_simpl.
  destruct (Z.ltb_spec (capacity v) (len s')) as [Hlt | Hge]; st_simpl;
    (eexists _, _; split; [reflexivity |]);
    unfold tidy, wf, logical; st_simpl; fold (elems s'); rewrite Hel;
    repeat split; lia.
Qed.

(** Each option but [WithCapacity] leaves the vector tidy. *)
Lemma appending_tidy (option0 : Option) v :
  appending option0 → slice_ok (data v) →
  ∃ v' n, option0 v = Done (tt, v') n ∧ tidy v'.
Proof.
  intros [values | n d | count x | values] Hok.
  - destruct (WithValues_ok v values Hok) as (v' & n & ? & _ & _ & _ & ?); eauto.
  - eexists _, _. split; [apply WithSize_ok |].
    unfold tidy, wf, cap. st_simpl. rewrite length_replicate. lia.
  - destruct (WithFill_ok v count x Hok) as (v' & n & ? & _ & _ & _ & ?); eauto.
  - destruct (FromSlice_ok v values Hok) as (v' & n & ? & _ & _ & _ & ?); eauto.
Qed.

Lemma apply_options_tidy (options : list Option) : ∀ v,
  Forall appending options → tidy v →
  ∃ v' n, apply_options options v = Done (tt, v') n ∧ tidy v'.
Proof.
  induction options as [| option0 rest IH]; intros v Hall Htidy.
  - by exists v, 0%nat.
  - apply Forall_cons in Hall as [Hopt Hrest].
    destruct (appending_tidy option0 v Hopt) as (v1 & n1 & Hrun1 & Htidy1).
    { destruct Htidy as [[? ?] ?]. split; lia. }
    destruct (IH v1 Hrest Htidy1) as (v' & n & Hrun & Htidy').
    exists v', (n1 + n)%nat. cbn [apply_options]. st_unfold.
    by rewrite Hrun1, Hrun.
Qed.

(** A list of options without [WithCapacity] builds a tidy vector. *)
Lemma New_tidy (options : list Option) :
  Forall appending options →
  ∃ v n, New options = Done v n ∧ tidy v.
Proof.
  intros Hall.
  destruct (apply_options_tidy options
              {| data := Slice [] 0; size := 0; capacity := 0 |} Hall)
    as (v & n & Hrun & Htidy); [by compute |].
  exists v, (1 + n)%nat. unfold New.
  change (make 0 0) with (@Done (slice T) (Slice [] 0) 1). st_simpl.
  by rewrite Hrun.
Qed.

(** [New] with one more option at the end. *)
Lemma apply_options_snoc (before : list Option) (option0 : Option) : ∀ v,
  apply_options (before ++ [option0]) v
  = match apply_options before v with
    | Done (_, v1) n =>
        match option0 v1 with
        | Done (_, v2) n' => Done (tt, v2) (n + n')
        | Panic e => Panic e
        end
    | Panic e => Panic e
    end.
Proof.
  induction before as [| o rest IH]; intros v; cbn [apply_options app]; st_unfold.
  - destruct (option0 v) as [[[] v2] n |]; [| done]. st_simpl.
    by rewrite Nat.add_0_r.
  - destruct (o v) as [[[] v1] n1 |]; [| done]. st_simpl. rewrite IH.
    destruct (apply_options rest v1) as [[[] v2] n2 |]; [| done].
    destruct (option0 v2) as [[[] v3] n3 |]; [| done].
    by rewrite Nat.add_assoc.
Qed.

(** [WithValues] after options that left the vector tidy. *)
Lemma WithValues_after (before : list Option) (values : list T) v0 n0 :
  New before = Done v0 n0 → tidy v0 →
  ∃ v n, New (before ++ [WithValues values]) = Done v n
         ∧ contents v = Done (logical v0 ++ values) 0
         ∧ size v = size v0 + Z.of_nat (length values)
         ∧ capacity v = Z.max (capacity v0) (size v)
         ∧ tidy v.
Proof.
  unfold New. change (make 0 0) with (@Done (slice T) (Slice [] 0) 1). st_simpl.
  intros Hbefore Htidy. rewrite apply_options_snoc.
  destruct (apply_options before _) as [[[] v1] n1 |]; [| done].
  injection Hbefore as -> <-.
  pose proof Htidy as [[Hs Hl] Hlen].
  destruct (WithValues_ok v0 values) as (v & n & Hwv & Hlog & Hsize & Hcap & Htidy');
    [split; lia |].
  rewrite Hwv. exists v, (1 + (n1 + n))%nat.
  assert (Hel : elems (data v0) = logical v0)
    by (unfold elems, logical; by rewrite Hlen).
  pose proof Htidy' as [[? ?] ?].
  split; [done |]. split; [| split; [lia | by split]].
  rewrite contents_logical by lia. by rewrite Hlog, Hel.
Qed.

(** C3, as amended.  After options that left the vector tidy (the data slice
    shows exactly the logical elements, as it does after any options other
    than [WithCapacity]), [WithValues(values...)] appends: the logical
    contents become the former contents followed by [values], the size grows
    by their number, and the capacity becomes the size unless it was larger.
    As the only option it gives exactly [values] with size = capacity = their
    number. *)
Theorem WithValues_appends (before : list Option) (values : list T) v0 n0 :
  New before = Done v0 n0 → tidy v0 →
  ∃ v n, New (before ++ [WithValues values]) = Done v n
         ∧ contents v = Done (logical v0 ++ values) 0
         ∧ size v = size v0 + Z.of_nat (length values)
         ∧ capacity v = Z.max (capacity v0) (size v)
         ∧ tidy v
         ∧ (before = [] →
            contents v = Done values 0
            ∧ size v = Z.of_nat (length values)
            ∧ capacity v = Z.of_nat (length values)).
Proof.
  intros Hbefore Htidy.
  destruct (WithValues_after before values v0 n0 Hbefore Htidy)
    as (v & n & Hrun & Hcont & Hsize & Hcap & Htidy').
  exists v, n. do 5 (split; [done |]).
  intros ->. injection Hbefore as <- _.
  rewrite Hcont, Hcap, Hsize. st_simpl. unfold logical. st_simpl.
  repeat split. lia.
Qed.
End WithValues_facts.

(** The amended C3 at [New(WithValues(4, 5), WithValues(6))]. *)
Lemma WithValues_appends_witness :
  ∃ v n, New ([WithValues (RT:=doubling) [4; 5]] ++ [WithValues (RT:=doubling) [6]])
         = Done v n
         ∧ contents v = Done [4; 5; 6] 0
         ∧ size v = 3
         ∧ capacity v = 3.
Proof.
  destruct (WithValues_appends (RT:=doubling) [WithValues (RT:=doubling) [4; 5]] [6]
              {| data := Slice [4; 5] 2; size := 2; capacity := 2 |} 2%nat)
    as (v & n & Hrun & Hc & Hs & Hcap & _).
  - reflexivity.
  - unfold tidy, wf, cap. simpl. lia.
  - exists v, n. rewrite Hcap, Hs. simpl in *. by repeat split.
Defined.

(** C3, as stated, fails: a second [WithValues] does not replace what the
    first one stored.  [New(WithValues(1, 2), WithValues(3))] holds 1, 2, 3
    with size 3 and capacity 3, not 3 alone with size 1 and capacity 1. *)
Lemma WithValues_twice_counterexample :
  let v := {| data := Slice [1; 2; 3; 0] 3; size := 3; capacity := 3 |} in
  New [WithValues (RT:=doubling) [1; 2]; WithValues (RT:=doubling) [3]] = Done v 3
  ∧ contents v = Done [1; 2; 3] 0
  ∧ ¬ (contents v = Done [3] 0 ∧ size v = 1 ∧ capacity v = 1).
Proof.
  split; [reflexivity |]. split; [reflexivity |].
  intros (_ & Hsize & _). discriminate Hsize.
Qed.

(** The same on every runtime. *)
Lemma WithValues_twice `{RT : Runtime} :
  ∃ v n, New [WithValues [1; 2]; WithValues [3]] = Done v n
         ∧ contents v = Done [1; 2; 3] 0 ∧ size v = 3 ∧ capacity v = 3.
Proof.
  destruct (WithValues_after (T:=Z) [] [1; 2] _ _ eq_refl)
    as (v0 & n0 & Hrun0 & Hc0 & Hs0 & Hcap0 & Htidy0); [by compute |].
  destruct (WithValues_after [WithValues [1; 2]] [3] v0 n0 Hrun0 Htidy0)
    as (v & n & Hrun & Hc & Hs & Hcap & _).
  exists v, n. split; [done |].
  assert (Hlog : logical v0 = [1; 2]).
  { destruct Htidy0 as [[? ?] ?]. rewrite contents_logical in Hc0 by lia.
    by injection Hc0. }
  rewrite Hc, Hcap, Hs, Hlog, Hcap0, Hs0. by compute.
Qed.

(** After [WithCapacity(5)] the data slice already shows five zero slots, and
    [WithValues(1, 2, 3)] appends to them. *)
Example WithValues_after_WithCapacity :
  let v := {| data := Slice [0; 0; 0; 0; 0; 1; 2; 3] 8; size := 8; capacity := 8 |} in
  New [WithCapacity 5; WithValues (RT:=tight) [1; 2; 3]] = Done v 3
  ∧ contents v = Done [0; 0; 0; 0; 0; 1; 2; 3] 0.
Proof. split; vm_compute; reflexivity. Qed.

(** ** The invariant that holds *)

Section reachable_heaps.
Context {T : Type} {GT : GoType T} {RT : Runtime}.
Implicit Types (v : @Vector T) (h : gmap positive (@Vector T)) (p q : ptr).

(** [Insert] and [Erase] outside the bounds return the error and change
    nothing. *)
Lemma Insert_out_of_bounds v index (x : T) :
  ¬ (0 ≤ index ≤ size v) →
  Insert index x v = Done (errors_New "index out of bounds", v) 0.
Proof.
  intros Hi. unfold Insert. st_unfold. rewrite Z.gtb_ltb.
  destruct (Z.ltb_spec index 0); [done |]. by settle_tests.
Qed.

Lemma Erase_out_of_bounds v index :
  ¬ (0 ≤ index < size v) →
  Erase index v = Done (errors_New "index out of bounds", v) 0.
Proof.
  intros Hi. unfold Erase. st_unfold. rewrite Z.geb_leb.
  destruct (Z.ltb_spec index 0); [done |]. by settle_tests.
Qed.

(** A write through a view keeps every length. *)
Lemma view_write_wf v i (x : T) v' n :
  wf v → view_write i x v = Done (tt, v') n → wf v'.
Proof.
  intros [Hs Hl]. pose proof (cap_nonneg (data v)).
  unfold view_write, Data. st_unfold.
  rewrite slice_to_ok by lia. st_simpl.
  rewrite slice_to_ok by (unfold cap; st_simpl; lia). st_simpl.
  unfold slice_set.
  destruct ((0 <=? i) && (i <? _)); [| done]. st_simpl.
  intros [= <-]. unfold wf, cap in *. st_simpl.
  rewrite length_insert. lia.
Qed.

(** The call returned in the state at hand. *)
Ltac returned :=
  let H := fresh in intros H; injection H; intros; subst; done.

(** Every call of the public API keeps a well-formed vector well formed. *)
Lemma method_wf {A} (m : ST (@Vector T) A) v r v' n :
  method m → wf v → m v = Done (r, v') n → wf v'.
Proof.
  intros Hm Hwf. destruct Hm.
  - returned.
  - returned.
  - returned.
  - destruct (At_ok v index Hwf) as [Hin Hout].
    destruct (Z_lt_le_dec index 0) as [? | ?];
      [| destruct (Z_lt_le_dec index (size v)) as [? | ?]].
    + rewrite Hout by lia. returned.
    + destruct Hin as (x & _ & ->); [lia |]. returned.
    + rewrite Hout by lia. returned.
  - destruct (Z.eq_dec (size v) 0) as [H0 | H0].
    + destruct (empty_container_errors v H0) as (-> & _). returned.
    + destruct (Front_Back_ok v Hwf) as (x & y & _ & _ & -> & _);
        [destruct Hwf; lia |]. returned.
  - destruct (Z.eq_dec (size v) 0) as [H0 | H0].
    + destruct (empty_container_errors v H0) as (_ & -> & _). returned.
    + destruct (Front_Back_ok v Hwf) as (x & y & _ & _ & _ & ->);
        [destruct Hwf; lia |]. returned.
  - unfold Data. st_unfold. destruct (slice_to _ _); [| done].
    returned.
  - returned.
  - returned.
  - destruct (PushBack_ok v value Hwf) as (w & -> & _ & _ & _ & _ & _ & ?).
    returned.
  - apply (PopBack_wf v Hwf).
  - destruct (Z_lt_le_dec index 0) as [? | ?];
      [| destruct (Z_le_gt_dec index (size v)) as [? | ?]].
    + rewrite Insert_out_of_bounds by lia. returned.
    + destruct (Insert_ok v index value Hwf) as (w & k & -> & _ & _ & ?); [lia |].
      returned.
    + rewrite Insert_out_of_bounds by lia. returned.
  - destruct (Z_lt_le_dec index 0) as [? | ?];
      [| destruct (Z_lt_le_dec index (size v)) as [? | ?]].
    + rewrite Erase_out_of_bounds by lia. returned.
    + destruct (Erase_ok v index Hwf) as (w & -> & _ & _ & ? & _); [lia |].
      returned.
    + rewrite Erase_out_of_bounds by lia. returned.
  - destruct r. apply Clear_wf.
  - destruct (Reserve_ok v newCapacity Hwf) as (w & k & -> & _ & _ & _ & ?).
    returned.
  - destruct (Resize_ok v newSize value Hwf) as (w & -> & _ & _ & _ & _ & ?).
    returned.
  - destruct (Assign_ok v values) as (w & k & -> & _ & _ & _ & ?).
    returned.
  - destruct r. by apply view_write_wf.
Qed.

(** With [WithCapacity] first or absent, [New] returns a well-formed
    vector. *)
Lemma New_safe_wf (options : list Option) :
  safe_options options → ∃ v n, New options = Done v n ∧ wf v.
Proof.
  intros [opts Hall | cap0 opts Hall].
  - destruct (New_tidy opts Hall) as (v & n & ? & [? _]). eauto.
  - set (start := {| data := Slice [] 0; size := 0; capacity := 0 |} : @Vector T).
    destruct (WithCapacity_ok start cap0) as [Hrun _]. revert Hrun.
    set (v1 := Build_Vector _ _ _). intros Hrun.
    assert (Hok1 : slice_ok (data v1)).
    { unfold slice_ok, cap. subst v1. st_simpl. rewrite length_replicate. lia. }
    assert (∃ v n, apply_options opts v1 = Done (tt, v) n ∧ wf v)
      as (v & n & Hrest & Hwf).
    { destruct opts as [| o rest].
      - exists v1, 0%nat. split; [done |].
        unfold wf, cap. subst v1 start. st_simpl. rewrite length_replicate. lia.
      - apply Forall_cons in Hall as [Ho Hrest].
        destruct (appending_tidy o v1 Ho Hok1) as (v2 & n2 & Hrun2 & Htidy2).
        destruct (apply_options_tidy rest v2 Hrest Htidy2) as (v & n & Hrun3 & [? _]).
        exists v, (n2 + n)%nat. cbn [apply_options]. st_unfold.
        by rewrite Hrun2, Hrun3. }
    exists v, (1 + (1 + n))%nat. unfold New.
    change (make 0 0) with (@Done (slice T) (Slice [] 0) 1). st_simpl.
    cbn [apply_options]. st_unfold. fold start. by rewrite Hrun, Hrest.
Qed.

(** [Swap] exchanges the two vectors, also when they are the same one. *)
Lemma Swap_exchanges h p q h' n :
  Swap p q h = Done (tt, h') n →
  ∃ a b, h !! p = Some a ∧ h !! q = Some b
         ∧ h' = <[q := a]> (<[p := b]> h).
Proof.
  unfold Swap, deref, call. st_unfold.
  destruct (h !! q) as [b |] eqn:Hq; [| done]. st_simpl.
  destruct (h !! p) as [a |] eqn:Hp; [| done]. st_simpl.
  destruct (decide (p = q)) as [-> | Hne].
  - assert (a = b) as -> by congruence.
    repeat (rewrite ?Hq, ?lookup_insert_eq, ?insert_insert_eq; st_simpl;
            rewrite ?Vector_eta).
    intros [= <- _]. exists b, b. by rewrite insert_insert_eq.
  - repeat (rewrite ?Hp, ?Hq, ?lookup_insert_eq, ?lookup_insert_ne by done;
            st_simpl).
    intros [= <- _]. exists a, b. split; [done |]. split; [done |].
    apply map_eq. intros r.
    destruct (decide (r = q)) as [-> | Hrq];
      [| destruct (decide (r = p)) as [-> | Hrp]];
      repeat first [ rewrite lookup_insert_eq
                   | rewrite lookup_insert_ne by done ];
      by rewrite ?Vector_eta.
Qed.

(** The invariant: on every heap built with [WithCapacity] kept first, each
    vector has 0 <= size <= len(data) <= cap(data). *)
Lemma reachable_wf h : reachable safe_options h → heap_wf h.
Proof.
  induction 1 as [| h p options v n _ IH Hfresh Hsafe Hnew
                  | A h p m r h' n _ IH Hm Hcall
                  | h p q h' n _ IH Hswap]; intros p0 v0 Hp0.
  - by rewrite lookup_empty in Hp0.
  - destruct (New_safe_wf options Hsafe) as (w & k & Hw & Hwf).
    rewrite Hw in Hnew. injection Hnew as <- _.
    destruct (decide (p0 = p)) as [-> | Hne].
    + rewrite lookup_insert_eq in Hp0. by injection Hp0 as <-.
    + rewrite lookup_insert_ne in Hp0 by done. by eapply IH.
  - unfold call in Hcall.
    destruct (h !! p) as [v |] eqn:Hp; [| done].
    destruct (m v) as [[r1 v1] n1 |] eqn:Hrun; [| done].
    injection Hcall as _ <- _.
    destruct (decide (p0 = p)) as [-> | Hne].
    + rewrite lookup_insert_eq in Hp0. injection Hp0 as <-.
      eapply method_wf; [done | by eapply IH | done].
    + rewrite lookup_insert_ne in Hp0 by done. by eapply IH.
  - destruct (Swap_exchanges h p q h' n Hswap) as (a & b & Ha & Hb & ->).
    destruct (decide (p0 = q)) as [-> | Hq].
    + rewrite lookup_insert_eq in Hp0. injection Hp0 as <-. by eapply IH.
    + rewrite lookup_insert_ne in Hp0 by done.
      destruct (decide (p0 = p)) as [-> | Hp].
      * rewrite lookup_insert_eq in Hp0. injection Hp0 as <-. by eapply IH.
      * rewrite lookup_insert_ne in Hp0 by done. by eapply IH.
Qed.

(** On such a heap [At] never panics. *)
Lemma reachable_At_total h p v index :
  reachable safe_options h → h !! p = Some v →
  ∃ r, At index v = Done (r, v) 0.
Proof.
  intros Hreach Hp. pose proof (reachable_wf h Hreach p v Hp) as Hwf.
  destruct (At_ok v index Hwf) as [Hin Hout].
  destruct (Z_lt_le_dec index 0) as [? | ?];
    [| destruct (Z_lt_le_dec index (size v)) as [? | ?]].
  - rewrite Hout by lia. eauto.
  - destruct Hin as (x & _ & ->); [lia |]. eauto.
  - rewrite Hout by lia. eauto.
Qed.
(** On such a heap [Insert(i, x)] then [Erase(i)] gives back the vector's
    size and logical sequence. *)
Lemma reachable_Insert_Erase h p v index (x : T) :
  reachable safe_options h → h !! p = Some v → 0 ≤ index ≤ size v →
  ∃ v1 n v2,
    Insert index x v = Done (nil_error, v1) n
    ∧ Erase index v1 = Done (nil_error, v2) 0
    ∧ size v2 = size v
    ∧ contents v2 = contents v.
Proof.
  intros Hreach Hp Hi. pose proof (reachable_wf h Hreach p v Hp) as Hwf.
  destruct (Insert_Erase_restores v index x Hwf Hi)
    as (v1 & n & v2 & ? & ? & ? & ? & _).
  by exists v1, n, v2.
Qed.

(** On such a heap [Resize] reallocates when the new size is above
    cap(data), sets the size, keeps the elements below the old and the new
    size and fills the new slots. *)
Lemma reachable_Resize h p v newSize (x : T) :
  reachable safe_options h → h !! p = Some v →
  let n := Z.max 0 newSize in
  ∃ v', Resize newSize x v = Done (tt, v') (if cap (data v) <? n then 1 else 0)
        ∧ size v' = n
        ∧ logical v'
          = take (Z.to_nat n) (logical v) ++ replicate (Z.to_nat (n - size v)) x
        ∧ cap (data v') = Z.max n (cap (data v)).
Proof.
  intros Hreach Hp n. pose proof (reachable_wf h Hreach p v Hp) as Hwf.
  destruct (Resize_ok v newSize x Hwf) as (v' & ? & ? & ? & ? & _).
  by exists v'.
Qed.

(** On such a heap [Front], [Back] and [PopBack] return the error on an
    empty vector and the first element, the last element and the vector one
    shorter on any other. *)
Lemma reachable_Front_Back_PopBack h p v :
  reachable safe_options h → h !! p = Some v →
  (size v = 0 →
   Front v = Done (zero_value, errors_New "vector is empty", v) 0
   ∧ Back v = Done (zero_value, errors_New "vector is empty", v) 0
   ∧ PopBack v = Done (errors_New "vector is empty", v) 0)
  ∧ (0 < size v →
     ∃ x y, logical v !! 0%nat = Some x
            ∧ logical v !! Z.to_nat (size v - 1) = Some y
            ∧ Front v = Done (x, nil_error, v) 0
            ∧ Back v = Done (y, nil_error, v) 0
            ∧ PopBack v
              = Done (nil_error,
                      {| data := data v; size := size v - 1;
                         capacity := capacity v |}) 0).
Proof.
  intros Hreach Hp. pose proof (reachable_wf h Hreach p v Hp) as Hwf.
  split; [apply empty_container_errors |]. intros Hpos.
  destruct (Front_Back_ok v Hwf Hpos) as (x & y & ? & ? & ? & ?).
  exists x, y. rewrite PopBack_ok by lia. by repeat split.
Qed.
End reachable_heaps.

(** ** Behaviour after a [WithCapacity] that is smaller than the size *)

Section after_WithCapacity.
Context {RT : Runtime}.

(** A vector made by [New] from the package's options is reachable. *)
Lemma reachable_New_alone (options : list Option) (v : @Vector Z) n :
  Forall recognized options → New options = Done v n →
  reachable (Forall recognized) {[1%positive := v]}.
Proof.
  intros Hall Hnew. rewrite <- insert_empty.
  by eapply reachable_New; [apply reachable_empty | | |].
Qed.

Lemma New_shrunk : New [WithValues [1; 2; 3]; WithCapacity 1] = Done shrunk 3.
Proof. reflexivity. Qed.

Lemma New_emptied : New [WithValues [1]; WithCapacity 0] = Done emptied 3.
Proof. reflexivity. Qed.

Lemma reachable_shrunk : reachable (Forall recognized) {[1%positive := shrunk]}.
Proof.
  eapply reachable_New_alone; [| apply New_shrunk]. repeat constructor.
Qed.

Lemma reachable_emptied : reachable (Forall recognized) {[1%positive := emptied]}.
Proof.
  eapply reachable_New_alone; [| apply New_emptied]. repeat constructor.
Qed.

(** C1.  The invariant 0 <= size <= capacity can be broken through the
    public API: [New(WithValues(1, 2, 3), WithCapacity(1))] returns a vector
    of size 3 and capacity 1, whose data slice has length 1.  [WithCapacity]
    replaces the storage and the capacity and leaves the size alone. *)
Theorem WithCapacity_breaks_size_le_capacity :
  New [WithValues [1; 2; 3]; WithCapacity 1] = Done shrunk 3
  ∧ reachable (Forall recognized) {[1%positive := shrunk]}
  ∧ size shrunk = 3 ∧ capacity shrunk = 1 ∧ len (data shrunk) = 1
  ∧ ¬ (0 ≤ size shrunk ≤ capacity shrunk).
Proof.
  split; [apply New_shrunk |]. split; [apply reachable_shrunk |].
  simpl. repeat split. lia.
Qed.

(** C2.  On that vector index 2 passes the bounds check of [At]
    (0 <= 2 < size) and the access to the data slice, of length 1, panics. *)
Theorem At_panics_after_WithCapacity :
  New [WithValues [1; 2; 3]; WithCapacity 1] = Done shrunk 3
  ∧ reachable (Forall recognized) {[1%positive := shrunk]}
  ∧ 0 ≤ 2 < size shrunk
  ∧ At 2 shrunk = Panic IndexOutOfRange.
Proof.
  split; [apply New_shrunk |]. split; [apply reachable_shrunk |].
  split; [simpl; lia | reflexivity].
Qed.

(** C4.  On that vector [Insert(2, 9)] passes the index check
    (0 <= 2 <= size) and panics when it slices the data, of length 2 after
    the append, from 3 on. *)
Theorem Insert_panics_after_WithCapacity :
  New [WithValues [1; 2; 3]; WithCapacity 1] = Done shrunk 3
  ∧ reachable (Forall recognized) {[1%positive := shrunk]}
  ∧ 0 ≤ 2 ≤ size shrunk
  ∧ Insert 2 9 shrunk = Panic SliceBoundsOutOfRange.
Proof.
  split; [apply New_shrunk |]. split; [apply reachable_shrunk |].
  split; [simpl; lia | reflexivity].
Qed.

(** C6.  On that vector [Resize(2, 0)] asks [make] for a slice of length 3
    (the size) and capacity 2, and panics. *)
Theorem Resize_panics_after_WithCapacity :
  New [WithValues [1; 2; 3]; WithCapacity 1] = Done shrunk 3
  ∧ reachable (Forall recognized) {[1%positive := shrunk]}
  ∧ Resize 2 0 shrunk = Panic MakesliceOutOfRange.
Proof.
  split; [apply New_shrunk |]. split; [apply reachable_shrunk |]. reflexivity.
Qed.

(** C7.  On that vector, of size 3 > 0, [Back] reads index 2 of a data slice
    of length 1 and panics; after [New(WithValues(1), WithCapacity(0))], of
    size 1 > 0, [Front] panics as well. *)
Theorem Back_panics_after_WithCapacity :
  (New [WithValues [1; 2; 3]; WithCapacity 1] = Done shrunk 3
   ∧ reachable (Forall recognized) {[1%positive := shrunk]}
   ∧ 0 < size shrunk
   ∧ Back shrunk = Panic IndexOutOfRange)
  ∧ (New [WithValues [1]; WithCapacity 0] = Done emptied 3
     ∧ reachable (Forall recognized) {[1%positive := emptied]}
     ∧ 0 < size emptied
     ∧ Front emptied = Panic IndexOutOfRange).
Proof.
  split.
  - split; [apply New_shrunk |]. split; [apply reachable_shrunk |].
    split; [simpl; lia | reflexivity].
  - split; [apply New_emptied |]. split; [apply reachable_emptied |].
    split; [simpl; lia | reflexivity].
Qed.

End after_WithCapacity.

(** ** The capacity field after the [append] in [Insert] *)

Section after_Insert.
Context {RT : Runtime}.

(** A second way past the capacity, without any option: after a [PopBack]
    the data slice is longer than the size, the [append] in [Insert] finds
    it full and moves it to a larger array, and the capacity field is not
    told, so that the next [PushBack] finds room and the size passes the
    capacity. *)
Lemma Insert_append_outgrows_capacity :
  ∃ v0 v n,
    New [] = Done v0 1
    ∧ (PushBack 1;; PopBack;; Insert 0 7;; PushBack 8) v0 = Done (tt, v) n
    ∧ size v = 2 ∧ capacity v = 1.
Proof.
  set (v1 := {| data := Slice [1] 1; size := 0; capacity := 1 |} : @Vector Z).
  assert (Hwf1 : wf v1) by (by compute).
  destruct (Insert_room v1 0 7 Hwf1) as (v2 & n2 & Hins & Hs2 & _ & Hwf2 & Hc2 & Hl2);
    [by compute | by compute |].
  destruct (PushBack_ok v2 8 Hwf2) as (v3 & Hpush & Hs3 & _ & _ & Hc3 & _).
  assert (Hroom : (size v2 =? cap (data v2)) = false).
  { destruct Hwf2. apply Z.eqb_neq. change (len (data v1)) with 1 in Hl2.
    change (size v1) with 0 in Hs2. lia. }
  rewrite Hroom in Hpush, Hc3.
  eexists _, v3, _. split; [reflexivity |]. split.
  - st_unfold. change (PushBack 1 _) with (@Done (unit * @Vector Z)
      (tt, {| data := Slice [1] 1; size := 1; capacity := 1 |}) 1).
    st_simpl. change (PopBack _) with (@Done (error * @Vector Z) (nil_error, v1) 0).
    st_simpl. rewrite Hins. st_simpl. rewrite Hpush. reflexivity.
  - rewrite Hs3, Hc3, Hs2, Hc2. by compute.
Qed.
End after_Insert.

(** ** Further properties of the vector *)

Section edits.
Context {T : Type} {GT : GoType T} {RT : Runtime}.
Implicit Types (v : @Vector T) (s : slice T) (l : list T) (x : T).

(** X1.  On a well-formed vector [Insert(index, x)] with 0 <= index <= size
    returns nil and leaves the elements before [index], then [x], then the
    elements from [index] on; the size grows by one, [At(index)] then reads
    [x], and at index = size the new contents are the old ones followed by
    [x]. *)
Theorem Insert_inserts v index x :
  wf v → 0 ≤ index ≤ size v →
  ∃ v' n, Insert index x v = Done (nil_error, v') n
          ∧ size v' = size v + 1
          ∧ contents v'
            = Done (take (Z.to_nat index) (logical v)
                      ++ x :: drop (Z.to_nat index) (logical v)) 0
          ∧ At index v' = Done (x, nil_error, v') 0
          ∧ (index = size v → contents v' = Done (logical v ++ [x]) 0)
          ∧ wf v'.
Proof.
  intros Hwf Hi.
  destruct (Insert_ok v index x Hwf Hi) as (v' & n & Hrun & Hs & Hl & Hwf').
  pose proof (length_logical v Hwf) as Hlen.
  assert (Hc : contents v'
               = Done (take (Z.to_nat index) (logical v)
                         ++ x :: drop (Z.to_nat index) (logical v)) 0).
  { rewrite contents_logical, Hl; [done |]. destruct Hwf' as [? ?]. lia. }
  exists v', n. split; [done |]. split; [done |]. split; [done |].
  split; [| split; [| done]].
  - destruct (At_ok v' index Hwf') as [Hin _].
    destruct Hin as (y & Hy & ->); [lia |].
    rewrite Hl in Hy. rewrite lookup_app_r in Hy by (rewrite length_take; lia).
    rewrite length_take in Hy.
    replace (Z.to_nat index - Z.to_nat index `min` length (logical v))%nat
      with 0%nat in Hy by lia.
    by injection Hy as ->.
  - intros ->. rewrite Hc. rewrite <- Hlen, take_ge, drop_ge by lia. done.
Qed.

(** X2.  On a well-formed vector [Erase(index)] with 0 <= index < size
    returns nil, allocates nothing and leaves the elements before [index]
    followed by those after it; the size drops by one and both the capacity
    field and the backing array's capacity stay. *)
Theorem Erase_erases v index :
  wf v → 0 ≤ index < size v →
  ∃ v', Erase index v = Done (nil_error, v') 0
        ∧ size v' = size v - 1
        ∧ contents v'
          = Done (take (Z.to_nat index) (logical v)
                    ++ drop (S (Z.to_nat index)) (logical v)) 0
        ∧ capacity v' = capacity v
        ∧ cap (data v') = cap (data v)
        ∧ wf v'.
Proof.
  intros Hwf Hi.
  destruct (Erase_ok v index Hwf Hi) as (v' & Hrun & Hs & Hl & Hwf' & Hcy & Hcap).
  exists v'. split; [done |]. split; [done |]. split; [| done].
  rewrite contents_logical, Hl; [done |]. destruct Hwf' as [? ?]. lia.
Qed.


(** X4.  On a well-formed vector [PushBack(x)] puts [x] last: [Back] and
    [At(size)] then read it, and a [PopBack] after it returns nil and gives
    back the size, the capacity the push left and the former contents. *)
Theorem PushBack_PopBack_restores v x :
  wf v →
  ∃ v1 n v2,
    PushBack x v = Done (tt, v1) n
    ∧ contents v1 = Done (logical v ++ [x]) 0
    ∧ Back v1 = Done (x, nil_error, v1) 0
    ∧ At (size v) v1 = Done (x, nil_error, v1) 0
    ∧ PopBack v1 = Done (nil_error, v2) 0
    ∧ size v2 = size v
    ∧ capacity v2 = capacity v1
    ∧ contents v2 = Done (logical v) 0
    ∧ wf v2.
Proof.
  intros Hwf. pose proof Hwf as [Hs Hl].
  pose proof (length_logical v Hwf) as Hlen.
  destruct (PushBack_ok v x Hwf) as (v1 & Hrun & Hs1 & Hlen1 & Hc1 & Hcy1 & Hl1 & Hwf1).
  pose proof Hwf1 as [Hs1' Hl1'].
  assert (Hlast : logical v1 !! Z.to_nat (size v) = Some x).
  { rewrite Hl1, lookup_app_r by lia.
    replace (Z.to_nat (size v) - length (logical v))%nat with 0%nat by lia. done. }
  eexists v1, _, _. split; [exact Hrun |].
  split; [rewrite contents_logical, Hl1; [done | lia] |].
  split.
  { destruct (Front_Back_ok v1 Hwf1) as (a & b & _ & Hb & _ & ->); [lia |].
    replace (size v1 - 1) with (size v) in Hb by lia. congruence. }
  split.
  { destruct (At_ok v1 (size v) Hwf1) as [Hin _].
    destruct Hin as (y & Hy & ->); [lia |]. congruence. }
  split; [apply PopBack_ok; lia |]. st_simpl.
  split; [lia |]. split; [done |]. split.
  - rewrite contents_logical by (st_simpl; lia). f_equal.
    unfold logical in *. st_simpl.
    replace (size v1 - 1) with (size v) by lia.
    apply (f_equal (take (Z.to_nat (size v)))) in Hl1.
    rewrite take_take, take_app_length' in Hl1 by lia.
    rewrite <- Hl1. f_equal. lia.
  - unfold wf in *. st_simpl. lia.
Qed.
End edits.

(** [Insert(1, 99)] on [1, 2, 3]. *)
Lemma Insert_inserts_witness :
  let v := {| data := Slice [1; 2; 3] 3; size := 3; capacity := 3 |} in
  ∃ v' n, Insert (RT:=doubling) 1 99 v = Done (nil_error, v') n
          ∧ size v' = size v + 1
          ∧ contents v'
            = Done (take (Z.to_nat 1) (logical v) ++ 99 :: drop (Z.to_nat 1) (logical v)) 0
          ∧ At 1 v' = Done (99, nil_error, v') 0
          ∧ (1 = size v → contents v' = Done (logical v ++ [99]) 0)
          ∧ wf v'.
Proof.
  apply (Insert_inserts (RT:=doubling)
           {| data := Slice [1; 2; 3] 3; size := 3; capacity := 3 |} 1 99).
  - unfold wf, cap. simpl. lia.
  - simpl. lia.
Defined.

(** [Erase(0)] on [1, 99, 2, 3] with two spare slots. *)
Lemma Erase_erases_witness :
  let v := {| data := Slice [1; 99; 2; 3; 0; 0] 4; size := 4; capacity := 6 |} in
  ∃ v', Erase 0 v = Done (nil_error, v') 0
        ∧ size v' = size v - 1
        ∧ contents v'
          = Done (take (Z.to_nat 0) (logical v) ++ drop (S (Z.to_nat 0)) (logical v)) 0
        ∧ capacity v' = capacity v
        ∧ cap (data v') = cap (data v)
        ∧ wf v'.
Proof.
  apply (Erase_erases {| data := Slice [1; 99; 2; 3; 0; 0] 4; size := 4; capacity := 6 |} 0).
  - unfold wf, cap. simpl. lia.
  - simpl. lia.
Defined.


(** A push onto the full vector [1, 2]. *)
Lemma PushBack_PopBack_restores_witness :
  let v := {| data := Slice [1; 2] 2; size := 2; capacity := 2 |} in
  ∃ v1 n v2,
    PushBack 3 v = Done (tt, v1) n
    ∧ contents v1 = Done (logical v ++ [3]) 0
    ∧ Back v1 = Done (3, nil_error, v1) 0
    ∧ At (size v) v1 = Done (3, nil_error, v1) 0
    ∧ PopBack v1 = Done (nil_error, v2) 0
    ∧ size v2 = size v
    ∧ capacity v2 = capacity v1
    ∧ contents v2 = Done (logical v) 0
    ∧ wf v2.
Proof.
  apply (PushBack_PopBack_restores
           {| data := Slice [1; 2] 2; size := 2; capacity := 2 |} 3).
  unfold wf, cap. simpl. lia.
Defined.

Section storage.
Context {T : Type} {GT : GoType T} {RT : Runtime}.
Implicit Types (v : @Vector T) (s : slice T) (l : list T) (x : T).

(** Pushes that find room allocate nothing. *)
Lemma push_all_room (values : list T) : ∀ v,
  wf v → size v + Z.of_nat (length values) ≤ cap (data v) →
  ∃ v', push_all values v = Done (tt, v') 0
        ∧ size v' = size v + Z.of_nat (length values)
        ∧ logical v' = logical v ++ values
        ∧ cap (data v') = cap (data v)
        ∧ capacity v' = capacity v
        ∧ wf v'.
Proof.
  induction values as [| x rest IH]; intros v Hwf Hroom.
  - exists v. cbn [length Z.of_nat]. rewrite Z.add_0_r, app_nil_r. done.
  - cbn [length] in Hroom.
    destruct (PushBack_ok v x Hwf) as (v1 & Hrun & Hs1 & _ & Hc1 & Hcy1 & Hl1 & Hwf1).
    assert (Hfull : (size v =? cap (data v)) = false) by (apply Z.eqb_neq; lia).
    cbv zeta in Hrun, Hc1, Hcy1. rewrite Hfull in Hrun, Hc1, Hcy1.
    destruct (IH v1 Hwf1) as (v' & Hrest & Hs' & Hl' & Hc' & Hcy' & Hwf'); [lia |].
    exists v'. split; [| split; [| split; [| split; [| split]]]].
    + simpl. st_unfold. rewrite Hrun. st_simpl. rewrite Hrest. reflexivity.
    + cbn [length]. lia.
    + rewrite Hl', Hl1, <- app_assoc. done.
    + congruence.
    + congruence.
    + done.
Qed.

(** [Reserve] in full. *)
Lemma Reserve_cases v newCapacity :
  wf v →
  let grows := cap (data v) <? newCapacity in
  ∃ v', Reserve newCapacity v = Done (tt, v') (if grows then 1 else 0)
        ∧ size v' = size v
        ∧ logical v' = logical v
        ∧ cap (data v') = Z.max newCapacity (cap (data v))
        ∧ capacity v' = (if grows then newCapacity else capacity v)
        ∧ (grows = false → v' = v)
        ∧ wf v'.
Proof.
  intros Hwf. pose proof Hwf as [Hs Hl].
  pose proof (length_logical v Hwf) as Hlen.
  unfold Reserve. st_unfold. st_simpl. rewrite Z.gtb_ltb. cbv zeta.
  destruct (Z.ltb_spec (cap (data v)) newCapacity) as [Hgrow | Hfit].
  - rewrite (reserve_ok v newCapacity Hwf) by lia.
    eexists. split; [reflexivity |]. unfold wf, logical, cap in *. st_simpl.
    rewrite length_app, length_replicate, length_take.
    split; [done |]. split; [| split; [lia | split; [done | split; [done | lia]]]].
    rewrite take_app_length'; [done |]. rewrite length_take. lia.
  - exists v. split; [reflexivity |]. repeat (split; [done || lia |]). done.
Qed.

(** X5.  After [Reserve(size + k)] on a well-formed vector, [k] pushes
    allocate nothing: the one allocation, if any, is the one [Reserve] makes
    when the backing array is too small, the backing array then stays the
    same size, and the contents are the former ones followed by the pushed
    values. *)
Theorem Reserve_then_pushes_allocate_nothing v (values : list T) :
  wf v →
  let k := Z.of_nat (length values) in
  ∃ v1 v2,
    Reserve (size v + k) v
    = Done (tt, v1) (if cap (data v) <? size v + k then 1 else 0)
    ∧ push_all values v1 = Done (tt, v2) 0
    ∧ size v2 = size v + k
    ∧ contents v2 = Done (logical v ++ values) 0
    ∧ cap (data v2) = cap (data v1)
    ∧ capacity v2 = capacity v1
    ∧ wf v2.
Proof.
  intros Hwf k.
  destruct (Reserve_cases v (size v + k) Hwf)
    as (v1 & Hrun & Hs1 & Hl1 & Hc1 & _ & _ & Hwf1).
  destruct (push_all_room values v1 Hwf1)
    as (v2 & Hpush & Hs2 & Hl2 & Hc2 & Hcy2 & Hwf2); [fold k; lia |].
  exists v1, v2. split; [done |]. split; [done |]. fold k in Hs2.
  split; [lia |]. split; [| done].
  rewrite contents_logical, Hl2, Hl1; [done |]. destruct Hwf2. lia.
Qed.


(** X7.  [Clear] keeps the storage for reuse, in any state: as many pushes
    after it as the backing array has slots allocate nothing, and leave
    exactly the pushed values, the capacity field and the backing array's
    capacity being those from before the [Clear]. *)
Theorem Clear_then_refill v (values : list T) :
  Z.of_nat (length values) ≤ cap (data v) →
  ∃ v1 v2,
    Clear v = Done (tt, v1) 0
    ∧ push_all values v1 = Done (tt, v2) 0
    ∧ size v2 = Z.of_nat (length values)
    ∧ contents v2 = Done values 0
    ∧ capacity v2 = capacity v
    ∧ cap (data v2) = cap (data v).
Proof.
  intros Hroom. pose proof (cap_nonneg (data v)) as Hcap.
  pose (v1 := {| data := Slice (arr (data v)) 0; size := 0; capacity := capacity v |}).
  assert (Hclear : Clear v = Done (tt, v1) 0).
  { unfold Clear. st_unfold. st_simpl. rewrite slice_to_ok by lia. reflexivity. }
  assert (Hwf1 : wf v1) by (by apply (Clear_wf v v1 0%nat)).
  destruct (push_all_room values v1 Hwf1)
    as (v2 & Hpush & Hs2 & Hl2 & Hc2 & Hcy2 & Hwf2); [done |].
  exists v1, v2. split; [done |]. split; [done |].
  split; [done |]. split; [| done].
  rewrite contents_logical, Hl2; [done |]. destruct Hwf2. lia.
Qed.

(** X8.  [Assign(values...)] replaces everything, in any state: it
    returns, the contents are exactly [values], the size their number, the
    capacity field the capacity of the fresh backing array, which holds them
    all; it allocates once, and not at all for no values, which leave
    capacity 0; and the vector it leaves does not depend on the one it was
    called on. *)
Theorem Assign_replaces v (values : list T) :
  ∃ v', Assign values v = Done (tt, v') (if decide (values = []) then 0 else 1)
        ∧ size v' = Z.of_nat (length values)
        ∧ contents v' = Done values 0
        ∧ capacity v' = cap (data v')
        ∧ size v' ≤ capacity v'
        ∧ (values = [] → capacity v' = 0)
        ∧ wf v'
        ∧ ∀ w, Assign values w = Assign values v.
Proof.
  destruct (Assign_ok v values) as (v' & n & Hrun & Hs & Hl & Hcy & Hwf).
  assert (Hn : n = if decide (values = []) then 0%nat else 1%nat).
  { revert Hrun. unfold Assign, go_append. st_unfold. st_simpl.
    unfold cap. st_simpl. destruct values as [| x rest].
    - cbn. by intros [= _ <-].
    - rewrite (proj2 (Z.leb_gt _ _)) by (cbn [length]; lia).
      cbn. by intros [= _ <-]. }
  exists v'. rewrite <- Hn. split; [done |]. split; [done |].
  split; [rewrite contents_logical, Hl; [done | destruct Hwf; lia] |].
  split; [done |]. split; [destruct Hwf; lia |]. split; [| split; [done |]].
  - intros ->. revert Hrun. unfold Assign, go_append. st_unfold. cbn.
    by intros [= <-].
  - intros w. unfold Assign. st_unfold.
    destruct (go_append (Slice [] 0) values); reflexivity.
Qed.
End storage.

(** Room for two more on [1, 2, 3]. *)
Lemma Reserve_then_pushes_allocate_nothing_witness :
  let v := {| data := Slice [1; 2; 3] 3; size := 3; capacity := 3 |} in
  let k := Z.of_nat (length [4; 5]) in
  ∃ v1 v2,
    Reserve (size v + k) v
    = Done (tt, v1) (if cap (data v) <? size v + k then 1 else 0)
    ∧ push_all [4; 5] v1 = Done (tt, v2) 0
    ∧ size v2 = size v + k
    ∧ contents v2 = Done (logical v ++ [4; 5]) 0
    ∧ cap (data v2) = cap (data v1)
    ∧ capacity v2 = capacity v1
    ∧ wf v2.
Proof.
  apply (Reserve_then_pushes_allocate_nothing
           {| data := Slice [1; 2; 3] 3; size := 3; capacity := 3 |} [4; 5]).
  unfold wf, cap. simpl. lia.
Defined.


(** Refilling the vector of size 3 that holds one slot. *)
Lemma Clear_then_refill_witness :
  ∃ v1 v2,
    Clear shrunk = Done (tt, v1) 0
    ∧ push_all [7] v1 = Done (tt, v2) 0
    ∧ size v2 = Z.of_nat (length [7])
    ∧ contents v2 = Done [7] 0
    ∧ capacity v2 = capacity shrunk
    ∧ cap (data v2) = cap (data shrunk).
Proof.
  apply (Clear_then_refill shrunk [7]).
  unfold cap. simpl. lia.
Defined.

Section options.
Context {T : Type} {GT : GoType T} {RT : Runtime}.
Implicit Types (v : @Vector T) (s : slice T) (l : list T) (x : T).


(** X10.  [WithFill(count, x)] appends [count] copies of [x] to what the
    data slice shows, and nothing for a count of 0 or less; the size becomes
    the length of the data slice and the capacity is raised to it if it was
    smaller.  Contents, size and capacity are those that [WithValues] gives
    for [count] copies of [x]. *)
Theorem WithFill_appends v count x :
  slice_ok (data v) →
  ∃ v' n, WithFill count x v = Done (tt, v') n
          ∧ contents v' = Done (elems (data v) ++ replicate (Z.to_nat count) x) 0
          ∧ size v' = len (data v) + Z.max 0 count
          ∧ capacity v' = Z.max (capacity v) (size v')
          ∧ (count ≤ 0 → contents v' = Done (elems (data v)) 0)
          ∧ tidy v'
          ∧ ∃ w m, WithValues (replicate (Z.to_nat count) x) v = Done (tt, w) m
                   ∧ contents w = contents v'
                   ∧ size w = size v'
                   ∧ capacity w = capacity v'.
Proof.
  intros Hok.
  destruct (WithFill_ok v count x Hok) as (v' & n & Hrun & Hl & Hs & Hcy & Ht).
  assert (Hc : contents v'
               = Done (elems (data v) ++ replicate (Z.to_nat count) x) 0).
  { rewrite contents_logical, Hl; [done |]. destruct Ht as [[? ?] ?]. lia. }
  exists v', n. split; [done |]. split; [done |]. split; [done |].
  split; [done |]. split; [| split; [done |]].
  - intros Hle. rewrite Hc. replace (Z.to_nat count) with 0%nat by lia.
    cbn [replicate]. by rewrite app_nil_r.
  - destruct (WithValues_ok v (replicate (Z.to_nat count) x) Hok)
      as (w & m & Hrun' & Hl' & Hs' & Hcy' & Ht').
    rewrite length_replicate in Hs'.
    exists w, m. split; [done |].
    assert (Hsize : size w = size v') by lia.
    split; [| split; [done | by rewrite Hcy', Hcy, Hsize]].
    rewrite Hc, contents_logical, Hl'; [done |]. destruct Ht' as [[? ?] ?]. lia.
Qed.

(** [FromSlice] and [WithValues] store alike. *)
Lemma FromSlice_like_WithValues v (values : list T) :
  ∀ v' n, FromSlice values v = Done (tt, v') n →
  ∃ w, WithValues values v = Done (tt, w) n
       ∧ data w = data v' ∧ size w = size v'
       ∧ capacity w = Z.max (capacity v) (size v').
Proof.
  intros v' n. unfold FromSlice, WithValues. st_unfold.
  destruct (go_append (data v) values) as [d m | e]; [| done]. st_simpl.
  intros [= <- <-]. st_simpl.
  destruct (Z.ltb_spec (capacity v) (len d)); st_simpl;
    (eexists; split; [reflexivity |]); st_simpl;
    (split; [done |]; split; [done |]; lia).
Qed.

(** X11.  [FromSlice(values)] appends [values] to what the data slice
    shows and sets the capacity to the new size, also when the capacity was
    larger; but for the capacity it leaves what [WithValues(values...)]
    leaves: the same data slice and size, with the same number of
    allocations. *)
Theorem FromSlice_appends v (values : list T) :
  slice_ok (data v) →
  ∃ v' n, FromSlice values v = Done (tt, v') n
          ∧ contents v' = Done (elems (data v) ++ values) 0
          ∧ size v' = len (data v) + Z.of_nat (length values)
          ∧ capacity v' = size v'
          ∧ tidy v'
          ∧ ∃ w, WithValues values v = Done (tt, w) n
                 ∧ data w = data v' ∧ size w = size v'
                 ∧ capacity w = Z.max (capacity v) (size v').
Proof.
  intros Hok.
  destruct (FromSlice_ok v values Hok) as (v' & n & Hrun & Hl & Hs & Hcy & Ht).
  exists v', n. split; [done |].
  split; [rewrite contents_logical, Hl; [done | destruct Ht as [[? ?] ?]; lia] |].
  split; [done |]. split; [done |]. split; [done |].
  by apply FromSlice_like_WithValues.
Qed.
End options.

(** [WithFill(2, 7)] after [1, 2, 3]. *)
Lemma WithFill_appends_witness :
  let v := {| data := Slice [1; 2; 3] 3; size := 3; capacity := 3 |} in
  ∃ v' n, WithFill (RT:=doubling) 2 7 v = Done (tt, v') n
          ∧ contents v' = Done (elems (data v) ++ replicate (Z.to_nat 2) 7) 0
          ∧ size v' = len (data v) + Z.max 0 2
          ∧ capacity v' = Z.max (capacity v) (size v')
          ∧ (2 ≤ 0 → contents v' = Done (elems (data v)) 0)
          ∧ tidy v'
          ∧ ∃ w m, WithValues (RT:=doubling) (replicate (Z.to_nat 2) 7) v = Done (tt, w) m
                   ∧ contents w = contents v'
                   ∧ size w = size v'
                   ∧ capacity w = capacity v'.
Proof.
  apply (WithFill_appends (RT:=doubling)
           {| data := Slice [1; 2; 3] 3; size := 3; capacity := 3 |} 2 7).
  unfold slice_ok, cap. simpl. lia.
Defined.

(** [FromSlice([4, 5])] after [WithCapacity(8)] and [1, 2, 3]. *)
Lemma FromSlice_appends_witness :
  let v := {| data := Slice [1; 2; 3; 0; 0; 0; 0; 0] 3; size := 3; capacity := 8 |} in
  ∃ v' n, FromSlice (RT:=doubling) [4; 5] v = Done (tt, v') n
          ∧ contents v' = Done (elems (data v) ++ [4; 5]) 0
          ∧ size v' = len (data v) + Z.of_nat (length [4; 5])
          ∧ capacity v' = size v'
          ∧ tidy v'
          ∧ ∃ w, WithValues (RT:=doubling) [4; 5] v = Done (tt, w) n
                 ∧ data w = data v' ∧ size w = size v'
                 ∧ capacity w = Z.max (capacity v) (size v').
Proof.
  apply (FromSlice_appends (RT:=doubling)
           {| data := Slice [1; 2; 3; 0; 0; 0; 0; 0] 3; size := 3; capacity := 8 |} [4; 5]).
  unfold slice_ok, cap. simpl. lia.
Defined.

Section heaps.
Context {T : Type} {GT : GoType T} {RT : Runtime}.
Implicit Types (v : @Vector T) (h : gmap positive (@Vector T)) (p q : ptr).

(** [Swap] on a nil pointer. *)
Lemma Swap_nil h p q :
  h !! p = None ∨ h !! q = None → Swap p q h = Panic NilDereference.
Proof.
  intros Hnil. unfold Swap, deref. st_unfold.
  destruct (h !! q) as [b |]; [| done].
  destruct Hnil as [Hp | [=]]. by rewrite Hp.
Qed.

(** X12.  [a.Swap(b)] and [b.Swap(a)] do the same, on every heap; on two
    distinct vectors the call exchanges them, touches no other vector and
    allocates nothing, and a second [Swap] puts everything back; when one of
    the pointers is nil it panics. *)
Theorem Swap_symmetric_involutive h p q :
  Swap p q h = Swap q p h
  ∧ (∀ a b, p ≠ q → h !! p = Some a → h !! q = Some b →
       ∃ h', Swap p q h = Done (tt, h') 0
             ∧ h' !! p = Some b ∧ h' !! q = Some a
             ∧ (∀ r, r ≠ p → r ≠ q → h' !! r = h !! r)
             ∧ Swap p q h' = Done (tt, h) 0)
  ∧ (h !! p = None ∨ h !! q = None → Swap p q h = Panic NilDereference).
Proof.
  split; [| split; [| apply Swap_nil]].
  - destruct (h !! p) as [a |] eqn:Hp; [destruct (h !! q) as [b |] eqn:Hq |].
    + destruct (decide (p = q)) as [-> | Hne]; [done |].
      destruct (Swap_distinct h p q a b Hne Hp Hq) as (h1 & -> & H1p & H1q & H1r).
      destruct (Swap_distinct h q p b a (not_eq_sym Hne) Hq Hp)
        as (h2 & -> & H2q & H2p & H2r).
      do 2 f_equal. apply map_eq. intros r.
      destruct (decide (r = p)) as [-> | Hrp]; [exact (eq_trans H1p (eq_sym H2p)) |].
      destruct (decide (r = q)) as [-> | Hrq]; [exact (eq_trans H1q (eq_sym H2q)) |].
      exact (eq_trans (H1r r Hrp Hrq) (eq_sym (H2r r Hrq Hrp))).
    + rewrite !Swap_nil; auto.
    + rewrite !Swap_nil; auto.
  - intros a b Hne Hp Hq.
    destruct (Swap_distinct h p q a b Hne Hp Hq) as (h1 & Hrun & H1p & H1q & H1r).
    destruct (Swap_distinct h1 p q b a Hne H1p H1q) as (h2 & Hback & H2p & H2q & H2r).
    exists h1. split; [done |]. split; [done |]. split; [done |]. split; [done |].
    rewrite Hback. do 2 f_equal. apply map_eq. intros r.
    destruct (decide (r = p)) as [-> | Hrp]; [exact (eq_trans H2p (eq_sym Hp)) |].
    destruct (decide (r = q)) as [-> | Hrq]; [exact (eq_trans H2q (eq_sym Hq)) |].
    exact (eq_trans (H2r r Hrp Hrq) (H1r r Hrp Hrq)).
Qed.

(** On a well-formed vector [Data] shows the logical elements. *)
Lemma Data_ok v :
  wf v →
  Data v = Done (Slice (arr (data v)) (size v), v) 0.
Proof.
  intros [Hs Hl]. unfold Data. st_unfold. st_simpl.
  rewrite slice_to_ok by lia. reflexivity.
Qed.

(** X13.  On a well-formed vector [Data()] returns, without copying, the
    backing array cut at the size: a slice of exactly [size] elements, those
    that [At] reads, index by index, with [Front] reading the first and
    [Back] the last; the vector is unchanged. *)
Theorem Data_agrees_with_At v :
  wf v →
  ∃ d, Data v = Done (d, v) 0
       ∧ arr d = arr (data v)
       ∧ len d = size v
       ∧ Z.of_nat (length (elems d)) = size v
       ∧ (∀ index x,
            At index v = Done (x, nil_error, v) 0
            ↔ 0 ≤ index < size v ∧ elems d !! Z.to_nat index = Some x)
       ∧ (∀ x, Front v = Done (x, nil_error, v) 0 ↔ head (elems d) = Some x)
       ∧ (∀ x, Back v = Done (x, nil_error, v) 0 ↔ last (elems d) = Some x).
Proof.
  intros Hwf. pose proof (length_logical v Hwf) as Hlen.
  exists (Slice (arr (data v)) (size v)).
  split; [by apply Data_ok |]. split; [done |]. split; [done |].
  change (elems (Slice (arr (data v)) (size v))) with (logical v).
  split; [destruct Hwf; lia |].
  split; [| split].
  - intros index x. destruct (At_ok v index Hwf) as [Hin Hout]. split.
    + intros Hat.
      destruct (decide (0 ≤ index < size v)) as [Hi | Hi].
      * destruct (Hin Hi) as (y & Hy & Hrun). split; [done |]. congruence.
      * rewrite (Hout Hi) in Hat. discriminate.
    + intros [Hi Hx]. destruct (Hin Hi) as (y & Hy & Hrun). congruence.
  - intros x. rewrite head_lookup.
    destruct (decide (size v = 0)) as [Hz | Hnz].
    + destruct (empty_container_errors v Hz) as (-> & _ & _).
      rewrite lookup_ge_None_2 by lia. split; discriminate.
    + destruct (Front_Back_ok v Hwf) as (a & b & Ha & _ & -> & _);
        [destruct Hwf; lia |].
      rewrite Ha. split; congruence.
  - intros x. rewrite last_lookup, Hlen.
    destruct (decide (size v = 0)) as [Hz | Hnz].
    + destruct (empty_container_errors v Hz) as (_ & -> & _).
      rewrite lookup_ge_None_2 by lia. split; discriminate.
    + destruct (Front_Back_ok v Hwf) as (a & b & _ & Hb & _ & ->);
        [destruct Hwf; lia |].
      replace (Nat.pred (Z.to_nat (size v))) with (Z.to_nat (size v - 1)) by lia.
      rewrite Hb. split; congruence.
Qed.

End heaps.

(** Reading [1, 2, 3]. *)
Lemma Data_agrees_with_At_witness :
  let v := {| data := Slice [1; 2; 3; 0] 3; size := 3; capacity := 4 |} in
  ∃ d, Data v = Done (d, v) 0
       ∧ arr d = arr (data v)
       ∧ len d = size v
       ∧ Z.of_nat (length (elems d)) = size v
       ∧ (∀ index x,
            At index v = Done (x, nil_error, v) 0
            ↔ 0 ≤ index < size v ∧ elems d !! Z.to_nat index = Some x)
       ∧ (∀ x, Front v = Done (x, nil_error, v) 0 ↔ head (elems d) = Some x)
       ∧ (∀ x, Back v = Done (x, nil_error, v) 0 ↔ last (elems d) = Some x).
Proof.
  apply (Data_agrees_with_At {| data := Slice [1; 2; 3; 0] 3; size := 3; capacity := 4 |}).
  unfold wf, cap. simpl. lia.
Defined.


Section sizes.
Context {T : Type} {GT : GoType T} {RT : Runtime}.
Implicit Types (v : @Vector T) (s : slice T) (l : list T) (x : T).


(** X16.  On a well-formed vector that is not empty [PopBack] returns nil
    and removes exactly the element that [Back] reads: the contents before
    are the contents after followed by it.  The data slice and the capacity
    are not touched, and nothing is allocated. *)
Theorem PopBack_removes_last v :
  wf v → 0 < size v →
  ∃ v' y, PopBack v = Done (nil_error, v') 0
          ∧ Back v = Done (y, nil_error, v) 0
          ∧ size v' = size v - 1
          ∧ contents v = Done (logical v' ++ [y]) 0
          ∧ contents v' = Done (logical v') 0
          ∧ data v' = data v
          ∧ capacity v' = capacity v
          ∧ wf v'.
Proof.
  intros Hwf Hpos. pose proof Hwf as [Hs Hl].
  pose proof (length_logical v Hwf) as Hlen.
  destruct (Front_Back_ok v Hwf Hpos) as (a & y & _ & Hy & _ & Hback).
  eexists _, y. split; [apply PopBack_ok; lia |]. split; [done |]. st_simpl.
  split; [done |]. split; [| split; [| split; [done | split; [done |]]]].
  - rewrite contents_logical by lia. f_equal.
    assert (Hcut : logical {| data := data v; size := size v - 1; capacity := capacity v |}
                   = take (Z.to_nat (size v - 1)) (logical v)).
    { unfold logical. st_simpl. rewrite take_take. f_equal. lia. }
    rewrite Hcut, <- (take_S_r _ _ _ Hy).
    rewrite take_ge by lia. done.
  - rewrite contents_logical by (st_simpl; lia). done.
  - unfold wf in *. st_simpl. lia.
Qed.





End sizes.


(** [PopBack] on [1, 2, 3]. *)
Lemma PopBack_removes_last_witness :
  let v := {| data := Slice [1; 2; 3] 3; size := 3; capacity := 3 |} in
  ∃ v' y, PopBack v = Done (nil_error, v') 0
          ∧ Back v = Done (y, nil_error, v) 0
          ∧ size v' = size v - 1
          ∧ contents v = Done (logical v' ++ [y]) 0
          ∧ contents v' = Done (logical v') 0
          ∧ data v' = data v
          ∧ capacity v' = capacity v
          ∧ wf v'.
Proof.
  apply (PopBack_removes_last {| data := Slice [1; 2; 3] 3; size := 3; capacity := 3 |}).
  - unfold wf, cap. simpl. lia.
  - simpl. lia.
Defined.



(** ** FilterNumbers *)

Section FilterNumbers_facts.
Context {RT : Runtime}.
Implicit Types (numbers : slice Z) (predicate : Z → bool) (result : slice Z).

(** The loop appends the numbers that pass, in their order. *)
Lemma filter_loop predicate (body : Z → ST (slice Z) unit) :
  (∀ x result,
      body x result
      = if predicate x
        then match go_append result [x] with
             | Done r n => Done (tt, r) n
             | Panic e => Panic e
             end
        else Done (tt, result) 0) →
  ∀ (xs : list Z) result,
    slice_ok result →
    ∃ result' n,
      tasks.for_each xs body result = Done (tt, result') n
      ∧ elems result' = elems result ++ List.filter predicate xs
      ∧ slice_ok result'
      ∧ (n ≤ length (List.filter predicate xs))%nat
      ∧ (List.filter predicate xs = [] → result' = result ∧ n = 0%nat).
Proof.
  intros Hbody. induction xs as [| x rest IH]; intros result Hok.
  - exists result, 0%nat. cbn [tasks.for_each List.filter length].
    rewrite app_nil_r. split; [reflexivity |]. split; [done |].
    split; [done |]. split; [lia | done].
  - cbn [tasks.for_each List.filter]. st_unfold. rewrite Hbody.
    destruct (predicate x) eqn:Hp.
    + destruct (go_append_elems result [x] Hok)
        as (r1 & n1 & Happ & Hel & _ & Hok1 & _ & _).
      assert (Hn1 : (n1 ≤ 1)%nat).
      { revert Happ. unfold go_append. destruct (_ <=? _); intros [= _ <-]; lia. }
      destruct (IH r1 Hok1) as (r2 & n2 & Hrun & Hel2 & Hok2 & Hn2 & _).
      rewrite Happ. st_simpl. rewrite Hrun.
      eexists _, _. split; [reflexivity |].
      rewrite Hel2, Hel, <- app_assoc. cbn [length].
      split; [done |]. split; [done |]. split; [lia | done].
    + destruct (IH result Hok) as (r2 & n2 & Hrun & Hel2 & Hok2 & Hn2 & Hnil).
      st_simpl. rewrite Hrun. eexists _, _. split; [reflexivity |].
      split; [done |]. split; [done |]. split; [lia | done].
Qed.

(** What [FilterNumbers] returns, in full. *)
Lemma FilterNumbers_ok numbers predicate :
  ∃ result n,
    tasks.FilterNumbers numbers predicate = Done result n
    ∧ elems result = List.filter predicate (elems numbers)
    ∧ slice_ok result
    ∧ (n ≤ length (List.filter predicate (elems numbers)))%nat
    ∧ (List.filter predicate (elems numbers) = [] → result = Slice [] 0 ∧ n = 0%nat).
Proof.
  unfold tasks.FilterNumbers.
  match goal with
  | |- context [tasks.for_each ?l ?body ?r0] =>
      assert (Hbody : ∀ x result,
                 body x result
                 = if predicate x
                   then match go_append result [x] with
                        | Done d k => Done (tt, d) k
                        | Panic e => Panic e
                        end
                   else Done (tt, result) 0);
      [| destruct (filter_loop predicate body Hbody l r0)
           as (result & n & Hrun & Hel & Hok & Hn & Hnil)]
  end.
  - intros x r. st_unfold. destruct (predicate x); [| done].
    destruct (go_append r [x]); [| done]. st_simpl. by rewrite Nat.add_0_r.
  - by compute.
  - rewrite Hrun. by exists result, n.
Qed.

(** X19.  [FilterNumbers] returns, in their order, exactly the numbers on
    which the predicate holds: a number is in the result as often as it
    passes in the input, and nothing else is. *)
Theorem FilterNumbers_filters numbers predicate :
  ∃ result n,
    tasks.FilterNumbers numbers predicate = Done result n
    ∧ elems result = List.filter predicate (elems numbers)
    ∧ (∀ x, x ∈ elems result ↔ x ∈ elems numbers ∧ predicate x = true)
    ∧ elems result `sublist_of` elems numbers
    ∧ len result = Z.of_nat (length (List.filter predicate (elems numbers)))
    ∧ len result ≤ cap result.
Proof.
  destruct (FilterNumbers_ok numbers predicate)
    as (result & n & Hrun & Hel & [Hok0 Hok1] & _ & _).
  exists result, n. split; [done |]. split; [done |].
  assert (Hlen : len result = Z.of_nat (length (List.filter predicate (elems numbers)))).
  { rewrite <- Hel. unfold elems, cap in *. rewrite length_take. lia. }
  split; [| split; [| by split]].
  - intros x. rewrite Hel, !list_elem_of_In. apply filter_In.
  - rewrite Hel. clear. induction (elems numbers) as [| y l IH]; [constructor |].
    cbn [List.filter]. destruct (predicate y); by constructor.
Qed.

(** X20.  When no number passes, and in particular on an empty input,
    [FilterNumbers] returns the nil slice (length 0, capacity 0) and allocates
    nothing; when every number passes it returns the input's elements, and it
    never allocates more often than it keeps numbers. *)
Theorem FilterNumbers_edges numbers predicate :
  ((∀ x, x ∈ elems numbers → predicate x = false) →
   tasks.FilterNumbers numbers predicate = Done (Slice [] 0) 0)
  ∧ ((∀ x, x ∈ elems numbers → predicate x = true) →
     ∃ result n, tasks.FilterNumbers numbers predicate = Done result n
                 ∧ elems result = elems numbers)
  ∧ ∃ result n, tasks.FilterNumbers numbers predicate = Done result n
                ∧ (n ≤ Z.to_nat (len result))%nat.
Proof.
  destruct (FilterNumbers_ok numbers predicate)
    as (result & n & Hrun & Hel & [Hok0 Hok1] & Hn & Hnil).
  assert (Hlen : Z.to_nat (len result) = length (List.filter predicate (elems numbers))).
  { rewrite <- Hel. unfold elems, cap in *. rewrite length_take. lia. }
  split; [| split].
  - intros Hnone. destruct Hnil as [-> ->]; [| done].
    clear -Hnone. induction (elems numbers) as [| y l IH]; [done |].
    cbn [List.filter]. rewrite (Hnone y) by by left.
    apply IH. intros x Hx. apply Hnone. by right.
  - intros Hall. exists result, n. split; [done |]. rewrite Hel.
    clear -Hall. induction (elems numbers) as [| y l IH]; [done |].
    cbn [List.filter]. rewrite (Hall y) by by left.
    f_equal. apply IH. intros x Hx. apply Hall. by right.
  - exists result, n. split; [done | lia].
Qed.

(** X21.  Filtering the result once more, by a second predicate, is
    filtering the input by both; filtering twice by the same predicate
    changes nothing. *)
Theorem FilterNumbers_twice numbers (p q : Z → bool) :
  ∃ r1 n1 r2 n2 r12 n12,
    tasks.FilterNumbers numbers p = Done r1 n1
    ∧ tasks.FilterNumbers r1 q = Done r2 n2
    ∧ tasks.FilterNumbers numbers (λ x, p x && q x) = Done r12 n12
    ∧ elems r2 = elems r12
    ∧ ((∀ x, q x = p x) → elems r2 = elems r1).
Proof.
  destruct (FilterNumbers_ok numbers p) as (r1 & n1 & Hrun1 & Hel1 & _).
  destruct (FilterNumbers_ok r1 q) as (r2 & n2 & Hrun2 & Hel2 & _).
  destruct (FilterNumbers_ok numbers (λ x, p x && q x))
    as (r12 & n12 & Hrun12 & Hel12 & _).
  exists r1, n1, r2, n2, r12, n12. do 3 (split; [done |]).
  assert (Hcomp : ∀ l, List.filter q (List.filter p l)
                       = List.filter (λ x, p x && q x) l).
  { induction l as [| y l IH]; [done |]. cbn [List.filter].
    destruct (p y) eqn:Hp; cbn [List.filter andb]; [| done].
    destruct (q y); by rewrite IH. }
  split.
  - by rewrite Hel2, Hel1, Hel12, Hcomp.
  - intros Hsame. rewrite Hel2, Hel1, Hcomp.
    apply filter_ext. intros x. rewrite Hsame. by destruct (p x).
Qed.
End FilterNumbers_facts.

(** ** invertMap *)

Section invertMap_facts.
Context `{Countable K} `{Countable V}.
Implicit Types (s : gmap K V) (a : gmap V K) (entries : list (K * V)).

Lemma invertMap_along_snoc entries k v :
  tasks.invertMap_along (entries ++ [(k, v)])
  = <[v := k]> (tasks.invertMap_along entries).
Proof. unfold tasks.invertMap_along. by rewrite foldl_app. Qed.

(** What the loop leaves under [v] came from an entry with value [v]. *)
Lemma invertMap_along_sound entries v k :
  tasks.invertMap_along entries !! v = Some k → (k, v) ∈ entries.
Proof.
  induction entries as [| [k' v'] entries IH] using rev_ind; [done |].
  rewrite invertMap_along_snoc, elem_of_app, list_elem_of_singleton.
  destruct (decide (v' = v)) as [-> | Hne].
  - rewrite lookup_insert_eq. intros [= ->]. by right.
  - rewrite lookup_insert_ne by done. intros Hv. left. by apply IH.
Qed.

(** Every value of an entry is a key afterwards. *)
Lemma invertMap_along_complete entries k v :
  (k, v) ∈ entries → is_Some (tasks.invertMap_along entries !! v).
Proof.
  induction entries as [| [k' v'] entries IH] using rev_ind.
  - by intros ?%elem_of_nil.
  - rewrite invertMap_along_snoc, elem_of_app, list_elem_of_singleton.
    destruct (decide (v' = v)) as [-> | Hne].
    + rewrite lookup_insert_eq. eauto.
    + rewrite lookup_insert_ne by done. intros [Hin | [= -> ->]]; [auto | done].
Qed.

Lemma invertMap_along_size entries :
  (base.size (tasks.invertMap_along entries) ≤ length entries)%nat.
Proof.
  induction entries as [| [k v] entries IH] using rev_ind; [done |].
  rewrite invertMap_along_snoc, length_app, map_size_insert. cbn [length].
  destruct (_ !! v); unfold id; lia.
Qed.

Lemma iteration_elem s entries k v :
  tasks.iteration_of s entries → (k, v) ∈ entries ↔ s !! k = Some v.
Proof.
  unfold tasks.iteration_of. intros ->. apply elem_of_map_to_list.
Qed.

(** The loop ends, so there is a result. *)
Lemma invertMap_returns s :
  tasks.invertMap s (tasks.invertMap_along (map_to_list s)).
Proof. exists (map_to_list s). split; [by unfold tasks.iteration_of | done]. Qed.

(** What holds of every result, in one lemma. *)
Lemma invertMap_ok s a :
  tasks.invertMap s a →
  (∀ v k, a !! v = Some k → s !! k = Some v)
  ∧ (∀ k v, s !! k = Some v → ∃ k', a !! v = Some k' ∧ s !! k' = Some v)
  ∧ (base.size a ≤ base.size s)%nat.
Proof.
  intros (entries & Hiter & ->).
  assert (Hsound : ∀ v k, tasks.invertMap_along entries !! v = Some k → s !! k = Some v).
  { intros v k Hv. by apply (iteration_elem s entries), invertMap_along_sound. }
  split; [done |]. split.
  - intros k v Hkv.
    destruct (invertMap_along_complete entries k v) as [k' Hk'].
    { by apply (iteration_elem s entries). }
    exists k'. split; [done |]. by apply Hsound.
  - rewrite <- (length_map_to_list s). unfold tasks.iteration_of in Hiter.
    rewrite <- Hiter. apply invertMap_along_size.
Qed.

(** X22.  Whatever order the range loop takes, the map [invertMap] returns
    has exactly the values of [s] as keys, and under each of them one of the
    keys that [s] maps to it; it is no larger than [s]. *)
Theorem invertMap_inverts s a :
  tasks.invertMap s a →
  (∀ v k, a !! v = Some k → s !! k = Some v)
  ∧ (∀ k v, s !! k = Some v → ∃ k', a !! v = Some k' ∧ s !! k' = Some v)
  ∧ (∀ v, is_Some (a !! v) ↔ ∃ k, s !! k = Some v)
  ∧ (base.size a ≤ base.size s)%nat.
Proof.
  intros Hinv. destruct (invertMap_ok s a Hinv) as (Hsound & Hcomplete & Hsize).
  split; [done |]. split; [done |]. split; [| done].
  intros v. split.
  - intros [k Hk]. exists k. by apply Hsound.
  - intros [k Hk]. destruct (Hcomplete k v Hk) as (k' & Hk' & _). eauto.
Qed.

Lemma invertMap_injective s a :
  tasks.injective s → tasks.invertMap s a →
  ∀ v k, a !! v = Some k ↔ s !! k = Some v.
Proof.
  intros Hinj Hinv v k. destruct (invertMap_ok s a Hinv) as (Hsound & Hcomplete & _).
  split; [apply Hsound |]. intros Hk.
  destruct (Hcomplete k v Hk) as (k' & Hk' & Hs').
  by rewrite (Hinj k k' v Hk Hs').
Qed.
End invertMap_facts.

Section invertMap_round_trip.
Context `{Countable K} `{Countable V}.
Implicit Types (s : gmap K V) (a : gmap V K).

(** X23.  When distinct keys of [s] hold distinct values, [invertMap]
    returns the inverse map, the same one in whatever order the loop runs,
    of the same size, and inverting it gives [s] back. *)
Theorem invertMap_round_trip s a :
  tasks.injective s → tasks.invertMap s a →
  (∀ v k, a !! v = Some k ↔ s !! k = Some v)
  ∧ (∀ a', tasks.invertMap s a' → a' = a)
  ∧ (∀ s', tasks.invertMap a s' → s' = s)
  ∧ base.size a = base.size s.
Proof.
  intros Hinj Hinv.
  pose proof (invertMap_injective s a Hinj Hinv) as Hiff.
  assert (Hinj_a : tasks.injective a).
  { intros v1 v2 k H1 H2. apply Hiff in H1, H2. congruence. }
  assert (Hback : ∀ s', tasks.invertMap a s' → s' = s).
  { intros s' Hinv'. apply map_eq. intros k. apply option_eq. intros v.
    rewrite (invertMap_injective a s' Hinj_a Hinv' k v). apply Hiff. }
  split; [done |]. split; [| split; [done |]].
  - intros a' Hinv'. apply map_eq. intros v. apply option_eq. intros k.
    by rewrite Hiff, (invertMap_injective s a' Hinj Hinv' v k).
  - apply Nat.le_antisymm; [by apply (invertMap_ok s a) |].
    destruct (invertMap_ok a _ (invertMap_returns a)) as (_ & _ & Hle).
    by rewrite (Hback _ (invertMap_returns a)) in Hle.
Qed.
End invertMap_round_trip.

(** The inverse of [{1: 10, 2: 20}]. *)
Lemma invertMap_inverts_witness :
  let s : gmap nat nat := <[2%nat := 20%nat]> {[1%nat := 10%nat]} in
  let a := tasks.invertMap_along (map_to_list s) in
  (∀ v k, a !! v = Some k → s !! k = Some v)
  ∧ (∀ k v, s !! k = Some v → ∃ k', a !! v = Some k' ∧ s !! k' = Some v)
  ∧ (∀ v, is_Some (a !! v) ↔ ∃ k, s !! k = Some v)
  ∧ (base.size a ≤ base.size s)%nat.
Proof.
  intros s a. apply (invertMap_inverts s a). apply invertMap_returns.
Defined.

Lemma invertMap_round_trip_witness :
  let s : gmap nat nat := <[2%nat := 20%nat]> {[1%nat := 10%nat]} in
  let a := tasks.invertMap_along (map_to_list s) in
  (∀ v k, a !! v = Some k ↔ s !! k = Some v)
  ∧ (∀ a', tasks.invertMap s a' → a' = a)
  ∧ (∀ s', tasks.invertMap a s' → s' = s)
  ∧ base.size a = base.size s.
Proof.
  intros s a. apply (invertMap_round_trip s a).
  - intros k1 k2 v. subst s.
    rewrite !lookup_insert_Some, !lookup_singleton_Some. lia.
  - apply invertMap_returns.
Defined.

(** ** The counter *)

Lemma wrap_is_int z : tasks.is_int (tasks.wrap z).
Proof.
  unfold tasks.is_int, tasks.wrap, tasks.int_min, tasks.int_max.
  pose proof (Z.mod_pos_bound (z + 2 ^ 63) (2 ^ 64) ltac:(lia)). lia.
Qed.

Lemma wrap_int z : tasks.is_int z → tasks.wrap z = z.
Proof.
  unfold tasks.is_int, tasks.wrap, tasks.int_min, tasks.int_max. intros Hz.
  rewrite Z.mod_small; lia.
Qed.

Lemma wrap_add_l a b : tasks.wrap (tasks.wrap a + b) = tasks.wrap (a + b).
Proof.
  unfold tasks.wrap. f_equal.
  replace ((a + 2 ^ 63) mod 2 ^ 64 - 2 ^ 63 + b + 2 ^ 63)
    with ((a + 2 ^ 63) mod 2 ^ 64 + b) by lia.
  rewrite Zplus_mod_idemp_l. f_equal. lia.
Qed.

Lemma counter_eta (c : tasks.counter) : {| tasks.value := tasks.value c |} = c.
Proof. by destruct c. Qed.

(** X24.  On a counter holding an int, [Increment] and [Decrement] undo each
    other in either order and so do [Add n] and [Subtract n], also when the
    first of the two overflows; every method leaves an int in the counter. *)
Theorem counter_inverse_pairs (c : tasks.counter) (n : Z) :
  tasks.is_int (tasks.value c) →
  (tasks.Increment;; tasks.Decrement) c = Done (tt, c) 0
  ∧ (tasks.Decrement;; tasks.Increment) c = Done (tt, c) 0
  ∧ (tasks.Add n;; tasks.Subtract n) c = Done (tt, c) 0
  ∧ (tasks.Subtract n;; tasks.Add n) c = Done (tt, c) 0
  ∧ (∀ c', tasks.Increment c = Done (tt, c') 0 ∨ tasks.Decrement c = Done (tt, c') 0
           ∨ tasks.Add n c = Done (tt, c') 0 ∨ tasks.Subtract n c = Done (tt, c') 0
           ∨ tasks.Reset c = Done (tt, c') 0 →
           tasks.is_int (tasks.value c')).
Proof.
  intros Hc.
  assert (Hback : ∀ d, tasks.wrap (tasks.wrap (tasks.value c + d) - d) = tasks.value c).
  { intros d. replace (tasks.wrap (tasks.value c + d) - d)
      with (tasks.wrap (tasks.value c + d) + - d) by lia.
    rewrite wrap_add_l. replace (tasks.value c + d + - d) with (tasks.value c) by lia.
    by apply wrap_int. }
  assert (Hforth : ∀ d, tasks.wrap (tasks.wrap (tasks.value c - d) + d) = tasks.value c).
  { intros d. replace (tasks.value c - d) with (tasks.value c + - d) by lia.
    rewrite wrap_add_l. replace (tasks.value c + - d + d) with (tasks.value c) by lia.
    by apply wrap_int. }
  unfold tasks.Increment, tasks.Decrement, tasks.Add, tasks.Subtract, tasks.Reset.
  st_unfold. cbn [tasks.value Z.add].
  rewrite !Hback, !Hforth, counter_eta.
  repeat (split; [reflexivity |]).
  intros c' Hc'. repeat destruct Hc' as [Hc' | Hc']; injection Hc' as <-;
    cbn [tasks.value]; first [apply wrap_is_int | by compute].
Qed.

(** X25.  Two additions in a row are one addition of the wrapped sum;
    [Increment] is [Add 1], [Decrement] is [Add (-1)] and [Subtract n] is
    the addition of the negated [n]; after [Reset], [Add n] leaves [n], and
    [GetValue] reads the value without changing the counter. *)
Theorem counter_Add_composes (c : tasks.counter) (a b n : Z) :
  (tasks.Add a;; tasks.Add b) c = tasks.Add (tasks.wrap (a + b)) c
  ∧ tasks.Increment c = tasks.Add 1 c
  ∧ tasks.Decrement c = tasks.Add (-1) c
  ∧ tasks.Subtract n c = tasks.Add (tasks.wrap (- n)) c
  ∧ (tasks.is_int n →
     (tasks.Reset;; tasks.Add n;; tasks.GetValue) c = Done (n, tasks.newCounter n) 0)
  ∧ tasks.GetValue c = Done (tasks.value c, c) 0.
Proof.
  assert (Hwrap_r : ∀ x y, tasks.wrap (x + tasks.wrap y) = tasks.wrap (x + y)).
  { intros x y. by rewrite Z.add_comm, wrap_add_l, Z.add_comm. }
  unfold tasks.Increment, tasks.Decrement, tasks.Add, tasks.Subtract, tasks.Reset,
    tasks.GetValue, tasks.newCounter.
  st_unfold. cbn [tasks.value Z.add].
  split; [| split; [done | split; [done | split; [| split; [| done]]]]].
  - by rewrite wrap_add_l, Hwrap_r, Z.add_assoc.
  - rewrite Hwrap_r. repeat f_equal; lia.
  - intros Hn. change (0 + n) with n. by rewrite (wrap_int n Hn).
Qed.

(** At the largest int, [Increment] wraps to the smallest and [Decrement]
    comes back. *)
Lemma counter_inverse_pairs_witness :
  (tasks.Increment;; tasks.Decrement) (tasks.newCounter tasks.int_max)
  = Done (tt, tasks.newCounter tasks.int_max) 0.
Proof.
  apply (counter_inverse_pairs (tasks.newCounter tasks.int_max) 5).
  by compute.
Defined.
